(** * Multi-warehouse inventory reconciliation: the InventorySyncService

    A shallow embedding of the class [InventorySyncService] (an in-process
    engine holding a registry of warehouses, a sync queue and a conflict
    log) together with the properties of it that the specification states.

    Modelling conventions.
    - JavaScript numbers that hold counts, versions and timestamps are
      integers of [Z]; the model is exact while all values stay inside the
      safe integer range of a double.
    - [this.warehouses] is a JavaScript [Map], whose iteration order is the
      insertion order and which several methods iterate: it is an
      association list ([JsMap]).  A warehouse's [inventory] map is only
      ever looked up, written and measured, so it is a [gmap].
    - [Date.now()] and the random identifiers are inputs: every call of the
      engine takes the values it reads from the clock and from the random
      generator as arguments ([Env], [now], [draw]).
    - Objects are values, except where the code shares one: a conflict
      keeps a reference to the record object the target's inventory held,
      and [applyUpdate] assigns to that object before it replaces it; the
      conflict log follows these assignments ([cf_shared],
      [recordReplaced]).
    - A thrown [Error] is a [Throw] result; state mutated before the throw
      stays mutated, so every operation returns the new state next to its
      result.
    - Each asynchronous method is modelled run to completion.  The methods
      only ever await promises of their own synchronous bodies, and the
      continuations of the per-target syncs of one propagation touch
      disjoint fields, so the state reached when the returned promise
      settles is the one computed here.  Events emitted to subscribers are
      not part of the engine state. *)

From stdpp Require Import gmap strings list fin_maps.
From Stdlib Require Import ZArith QArith Lia.

#[local] Open Scope string_scope.
#[local] Open Scope Z_scope.
#[local] Open Scope list_scope.

(** ** Results of fallible operations *)

Inductive EngineError : Type :=
  | WarehouseNotFound (warehouseId : string)
  | InsufficientInventory (requested : Z).

Inductive Result (A : Type) : Type :=
  | Ok (a : A)
  | Throw (e : EngineError).

Arguments Ok {A} a.
Arguments Throw {A} e.

Definition isOk {A : Type} (r : Result A) : bool :=
  match r with Ok _ => true | Throw _ => false end.

(** ** Insertion-ordered maps (JavaScript [Map]) *)

Module JsMap.

Abbreviation t V := (list (string * V)) (only parsing).

Fixpoint get {V : Type} (k : string) (m : t V) : option V :=
  match m with
  | [] => None
  | (k', v) :: rest => if String.eqb k k' then Some v else get k rest
  end.

(** [Map.prototype.set]: an existing key keeps its position, a new key is
    appended. *)
Fixpoint set {V : Type} (k : string) (v : V) (m : t V) : t V :=
  match m with
  | [] => [(k, v)]
  | (k', v') :: rest =>
      if String.eqb k k' then (k', v) :: rest else (k', v') :: set k v rest
  end.

Definition keys {V : Type} (m : t V) : list string := map fst m.

End JsMap.

(** ** Data model *)

Record InventoryRecord : Type := mkRecord {
  quantity : Z;
  reserved : Z;
  version : Z;
  lastUpdated : Z
}.

Record InventoryUpdate : Type := mkUpdate {
  upd_id : string;
  upd_warehouseId : string;
  upd_productId : string;
  upd_quantity : Z;
  upd_operation : string;
  upd_timestamp : Z;
  upd_version : Z
}.

Record Warehouse : Type := mkWarehouse {
  wh_id : string;
  wh_location : string;
  wh_inventory : gmap string InventoryRecord;
  wh_lastSync : option Z;
  wh_status : string;
  wh_lag : Z
}.

(** A conflict object.  Its [currentState] is not a copy: it is the
    record object that the target's inventory held when the conflict was
    raised.  [cf_currentState] is the content of that object now, and
    [cf_shared] (book-keeping, no field of the JavaScript object) tells
    whether the object may still be the one stored in the inventory of the
    warehouse [cf_warehouseId] under [cf_productId]; it is, until
    [applyUpdate] next replaces that record. *)
Record Conflict : Type := mkConflict {
  cf_id : string;
  cf_warehouseId : string;
  cf_productId : string;
  cf_incomingUpdate : InventoryUpdate;
  cf_currentState : InventoryRecord;
  cf_timestamp : Z;
  cf_resolved : bool;
  cf_resolution : option string;
  cf_shared : bool
}.

Record Engine : Type := mkEngine {
  warehouses : JsMap.t Warehouse;
  syncQueue : list InventoryUpdate;
  conflicts : list Conflict;
  syncInProgress : bool
}.

(** What one call of [updateInventory] reads from the clock and from the
    random generator. *)
Record Env : Type := mkEnv {
  env_updateId : string;              (* generateUpdateId() *)
  env_now : Z;                        (* Date.now() stamped on the update *)
  env_conflictId : string -> string;  (* generateConflictId() at a target *)
  env_conflictTime : string -> Z;     (* Date.now() stamped on a conflict *)
  env_syncTime : string -> Z          (* Date.now() stored in lastSync *)
}.

(** [constructor] *)
Definition newEngine : Engine :=
  {| warehouses := []; syncQueue := []; conflicts := [];
     syncInProgress := false |}.

(** ** Warehouse registry *)

(** [registerWarehouse(warehouseId, location)] *)
Definition registerWarehouse (warehouseId location : string) (s : Engine)
  : Engine :=
  {| warehouses :=
       JsMap.set warehouseId
         {| wh_id := warehouseId; wh_location := location;
            wh_inventory := ∅; wh_lastSync := None;
            wh_status := "active"; wh_lag := 0 |}
         (warehouses s);
     syncQueue := syncQueue s;
     conflicts := conflicts s;
     syncInProgress := syncInProgress s |}.

(** [getVersion(warehouseId, productId)] *)
Definition getVersion (s : Engine) (warehouseId productId : string) : Z :=
  match JsMap.get warehouseId (warehouses s) with
  | None => 0
  | Some warehouse =>
      match wh_inventory warehouse !! productId with
      | Some inventory => version inventory
      | None => 0
      end
  end.

(** ** Update applier *)

(** The [switch] of [applyUpdate]: from the operation, the current quantity
    and reserved count and the update's value, the pair of [newQuantity]
    and of [current.reserved] when the switch is left.  An operation that
    matches no [case] falls through with both unchanged. *)
Definition applyOperation (operation : string) (curQuantity curReserved value : Z)
  : Result (Z * Z) :=
  if String.eqb operation "set" then Ok (value, curReserved)
  else if String.eqb operation "add" then Ok (curQuantity + value, curReserved)
  else if String.eqb operation "subtract" then
    Ok (Z.max 0 (curQuantity - value), curReserved)
  else if String.eqb operation "reserve" then
    if curQuantity >=? value then Ok (curQuantity, curReserved + value)
    else Throw (InsufficientInventory value)
  else if String.eqb operation "release" then
    Ok (curQuantity, Z.max 0 (curReserved - value))
  else Ok (curQuantity, curReserved).

Definition curQuantityOf (o : option InventoryRecord) : Z :=
  match o with Some r => quantity r | None => 0 end.

Definition curReservedOf (o : option InventoryRecord) : Z :=
  match o with Some r => reserved r | None => 0 end.

Definition curVersionOf (o : option InventoryRecord) : Z :=
  match o with Some r => version r | None => 0 end.

(** [applyUpdate(warehouse, update)].  Besides the warehouse with its new
    record, the result carries the value of [current.reserved] after the
    switch: [current] is the stored record object itself, which the
    [reserve] and [release] cases assign to before it is replaced, and a
    conflict may still hold a reference to it. *)
Definition applyUpdate (warehouse : Warehouse) (update : InventoryUpdate)
  : Result (Warehouse * Z) :=
  let current := wh_inventory warehouse !! upd_productId update in
  match applyOperation (upd_operation update) (curQuantityOf current)
          (curReservedOf current) (upd_quantity update) with
  | Throw e => Throw e
  | Ok (newQuantity, newReserved) =>
      Ok ({| wh_id := wh_id warehouse;
             wh_location := wh_location warehouse;
             wh_inventory :=
               <[upd_productId update :=
                   {| quantity := newQuantity;
                      reserved := newReserved;
                      version := upd_version update;
                      lastUpdated := upd_timestamp update |}]>
                 (wh_inventory warehouse);
             wh_lastSync := wh_lastSync warehouse;
             wh_status := wh_status warehouse;
             wh_lag := wh_lag warehouse |},
          newReserved)
  end.

(** ** Conflict resolver and propagator *)

Definition withLagIncremented (warehouse : Warehouse) : Warehouse :=
  {| wh_id := wh_id warehouse; wh_location := wh_location warehouse;
     wh_inventory := wh_inventory warehouse;
     wh_lastSync := wh_lastSync warehouse;
     wh_status := wh_status warehouse;
     wh_lag := wh_lag warehouse + 1 |}.

Definition withLastSync (t : Z) (warehouse : Warehouse) : Warehouse :=
  {| wh_id := wh_id warehouse; wh_location := wh_location warehouse;
     wh_inventory := wh_inventory warehouse;
     wh_lastSync := Some t;
     wh_status := wh_status warehouse;
     wh_lag := wh_lag warehouse |}.

Definition withReserved (r : Z) (rec : InventoryRecord) : InventoryRecord :=
  {| quantity := quantity rec; reserved := r; version := version rec;
     lastUpdated := lastUpdated rec |}.

(** Whether a logged conflict still references the record that
    [warehouse] stores for a product. *)
Definition referencesRecord (warehouse : Warehouse) (productId : string)
    (c : Conflict) : bool :=
  cf_shared c
  && String.eqb (cf_warehouseId c) (wh_id warehouse)
  && String.eqb (cf_productId c) productId.

(** What a run of [applyUpdate] that returns does to the conflicts already
    logged.  [warehouse] is the warehouse before the run and [reservedNow]
    the value of [current.reserved] when the switch is left.  If the
    warehouse held a record for the product, [current] is that very
    object, so every conflict that references it sees the assignment of
    the [reserve] and [release] cases; the record is then replaced in the
    inventory by a new object, and the conflicts are left with the old
    one. *)
Definition recordReplaced (warehouse : Warehouse) (productId : string)
    (reservedNow : Z) (log : list Conflict) : list Conflict :=
  map (fun c =>
         if referencesRecord warehouse productId c then
           {| cf_id := cf_id c;
              cf_warehouseId := cf_warehouseId c;
              cf_productId := cf_productId c;
              cf_incomingUpdate := cf_incomingUpdate c;
              cf_currentState :=
                match wh_inventory warehouse !! productId with
                | Some _ => withReserved reservedNow (cf_currentState c)
                | None => cf_currentState c
                end;
              cf_timestamp := cf_timestamp c;
              cf_resolved := cf_resolved c;
              cf_resolution := cf_resolution c;
              cf_shared := false |}
         else c)
      log.

(** [handleConflict(warehouse, update, current)].  The conflict is pushed
    first, with [resolved: false] and [currentState] referencing the
    stored record; the two branches of the timestamp test then assign
    [resolved] and [resolution] on the pushed object.  When [applyUpdate]
    throws, the exception leaves the method before those assignments.
    When it returns, it has assigned to the record that the new conflict
    and possibly older ones reference, and replaced it. *)
Definition handleConflict (env : Env) (warehouse : Warehouse)
    (update : InventoryUpdate) (current : InventoryRecord)
    (log : list Conflict) : Result Warehouse * list Conflict :=
  let conflict :=
    {| cf_id := env_conflictId env (wh_id warehouse);
       cf_warehouseId := wh_id warehouse;
       cf_productId := upd_productId update;
       cf_incomingUpdate := update;
       cf_currentState := current;
       cf_timestamp := env_conflictTime env (wh_id warehouse);
       cf_resolved := false;
       cf_resolution := None;
       cf_shared := true |} in
  if upd_timestamp update >? lastUpdated current then
    match applyUpdate warehouse update with
    | Throw e => (Throw e, log ++ [conflict])
    | Ok (warehouse', reservedNow) =>
        (Ok warehouse',
         recordReplaced warehouse (upd_productId update) reservedNow log
         ++ [ {| cf_id := cf_id conflict;
                     cf_warehouseId := cf_warehouseId conflict;
                     cf_productId := cf_productId conflict;
                     cf_incomingUpdate := update;
                     cf_currentState :=
                       {| quantity := quantity current;
                          reserved := reservedNow;
                          version := version current;
                          lastUpdated := lastUpdated current |};
                     cf_timestamp := cf_timestamp conflict;
                     cf_resolved := true;
                     cf_resolution := Some "accepted_incoming";
                     cf_shared := false |} ])
    end
  else
    (Ok warehouse,
     log ++ [ {| cf_id := cf_id conflict;
                 cf_warehouseId := cf_warehouseId conflict;
                 cf_productId := cf_productId conflict;
                 cf_incomingUpdate := update;
                 cf_currentState := current;
                 cf_timestamp := cf_timestamp conflict;
                 cf_resolved := true;
                 cf_resolution := Some "kept_current";
                 cf_shared := true |} ]).

(** [syncToWarehouse(warehouse, update)]: the [try] body and its [catch]. *)
Definition syncToWarehouse (env : Env) (warehouse : Warehouse)
    (update : InventoryUpdate) (log : list Conflict)
  : Warehouse * list Conflict :=
  match wh_inventory warehouse !! upd_productId update with
  | Some current =>
      if version current >=? upd_version update then
        match handleConflict env warehouse update current log with
        | (Ok warehouse', log') => (warehouse', log')
        | (Throw _, log') => (withLagIncremented warehouse, log')
        end
      else
        match applyUpdate warehouse update with
        | Ok (warehouse', reservedNow) =>
            (withLastSync (env_syncTime env (wh_id warehouse)) warehouse',
             recordReplaced warehouse (upd_productId update) reservedNow log)
        | Throw _ => (withLagIncremented warehouse, log)
        end
  | None =>
      match applyUpdate warehouse update with
      | Ok (warehouse', reservedNow) =>
          (withLastSync (env_syncTime env (wh_id warehouse)) warehouse',
           recordReplaced warehouse (upd_productId update) reservedNow log)
      | Throw _ => (withLagIncremented warehouse, log)
      end
  end.

(** The loop of [propagateUpdate(update)] over the entries of
    [this.warehouses], in insertion order. *)
Fixpoint propagateLoop (env : Env) (update : InventoryUpdate)
    (ws : JsMap.t Warehouse) (log : list Conflict)
  : JsMap.t Warehouse * list Conflict :=
  match ws with
  | [] => ([], log)
  | (warehouseId, warehouse) :: rest =>
      let '(warehouse', log') :=
        if negb (String.eqb warehouseId (upd_warehouseId update))
           && String.eqb (wh_status warehouse) "active"
        then syncToWarehouse env warehouse update log
        else (warehouse, log) in
      let '(rest', log'') := propagateLoop env update rest log' in
      ((warehouseId, warehouse') :: rest', log'')
  end.

Definition propagateUpdate (env : Env) (update : InventoryUpdate) (s : Engine)
  : Engine :=
  let '(ws, log) := propagateLoop env update (warehouses s) (conflicts s) in
  {| warehouses := ws; syncQueue := syncQueue s; conflicts := log;
     syncInProgress := syncInProgress s |}.

(** ** The public mutations *)

Definition withWarehouse (warehouseId : string) (warehouse : Warehouse)
    (s : Engine) : Engine :=
  {| warehouses := JsMap.set warehouseId warehouse (warehouses s);
     syncQueue := syncQueue s; conflicts := conflicts s;
     syncInProgress := syncInProgress s |}.

Definition withConflicts (log : list Conflict) (s : Engine) : Engine :=
  {| warehouses := warehouses s; syncQueue := syncQueue s;
     conflicts := log; syncInProgress := syncInProgress s |}.

Definition enqueue (update : InventoryUpdate) (s : Engine) : Engine :=
  {| warehouses := warehouses s;
     syncQueue := syncQueue s ++ [update];
     conflicts := conflicts s;
     syncInProgress := syncInProgress s |}.

Definition makeUpdate (env : Env) (s : Engine)
    (warehouseId productId : string) (qty : Z) (operation : string)
  : InventoryUpdate :=
  {| upd_id := env_updateId env;
     upd_warehouseId := warehouseId;
     upd_productId := productId;
     upd_quantity := qty;
     upd_operation := operation;
     upd_timestamp := env_now env;
     upd_version := getVersion s warehouseId productId + 1 |}.

(** [updateInventory(warehouseId, productId, quantity, operation)] *)
Definition updateInventory (env : Env) (warehouseId productId : string)
    (qty : Z) (operation : string) (s : Engine)
  : Engine * Result InventoryUpdate :=
  match JsMap.get warehouseId (warehouses s) with
  | None => (s, Throw (WarehouseNotFound warehouseId))
  | Some warehouse =>
      let update := makeUpdate env s warehouseId productId qty operation in
      let s1 := enqueue update s in
      match applyUpdate warehouse update with
      | Throw e => (s1, Throw e)
      | Ok (warehouse', reservedNow) =>
          let s2 :=
            withWarehouse warehouseId warehouse'
              (withConflicts
                 (recordReplaced warehouse productId reservedNow (conflicts s1))
                 s1) in
          (propagateUpdate env update s2, Ok update)
      end
  end.

(** [reserveInventory(warehouseId, productId, quantity)] *)
Definition reserveInventory (env : Env) (warehouseId productId : string)
    (qty : Z) (s : Engine) : Engine * Result InventoryUpdate :=
  updateInventory env warehouseId productId qty "reserve" s.

(** [releaseInventory(warehouseId, productId, quantity)] *)
Definition releaseInventory (env : Env) (warehouseId productId : string)
    (qty : Z) (s : Engine) : Engine * Result InventoryUpdate :=
  updateInventory env warehouseId productId qty "release" s.

(** [commitReservation(warehouseId, productId, quantity)]: two calls of
    [updateInventory], each with its own readings of the clock. *)
Definition commitReservation (env1 env2 : Env) (warehouseId productId : string)
    (qty : Z) (s : Engine) : Engine * Result unit :=
  match releaseInventory env1 warehouseId productId qty s with
  | (s1, Throw e) => (s1, Throw e)
  | (s1, Ok _) =>
      match updateInventory env2 warehouseId productId qty "subtract" s1 with
      | (s2, Throw e) => (s2, Throw e)
      | (s2, Ok _) => (s2, Ok tt)
      end
  end.

(** The loop of [syncFromExternalSystem]: one [set] per item, each with
    its own environment; the first failure aborts the loop. *)
Fixpoint syncItems (warehouseId : string) (items : list (Env * (string * Z)))
    (s : Engine) : Engine * Result (list InventoryUpdate) :=
  match items with
  | [] => (s, Ok [])
  | (env, (productId, qty)) :: rest =>
      match updateInventory env warehouseId productId qty "set" s with
      | (s1, Throw e) => (s1, Throw e)
      | (s1, Ok update) =>
          match syncItems warehouseId rest s1 with
          | (s2, Throw e) => (s2, Throw e)
          | (s2, Ok updates) => (s2, Ok (update :: updates))
          end
      end
  end.

(** [syncFromExternalSystem(warehouseId, inventoryData)] *)
Definition syncFromExternalSystem (warehouseId : string)
    (inventoryData : list (Env * (string * Z))) (s : Engine)
  : Engine * Result (list InventoryUpdate) :=
  match JsMap.get warehouseId (warehouses s) with
  | None => (s, Throw (WarehouseNotFound warehouseId))
  | Some _ => syncItems warehouseId inventoryData s
  end.

(** ** Reads *)

Record WarehouseStock : Type := mkStock {
  st_warehouseId : string;
  st_location : string;
  st_quantity : Z;
  st_reserved : Z;
  st_available : Z
}.

Record GlobalInventory : Type := mkGlobal {
  gi_productId : string;
  gi_totalQuantity : Z;
  gi_totalReserved : Z;
  gi_totalAvailable : Z;
  gi_warehouses : list WarehouseStock;
  gi_lastUpdated : Z
}.

(** The loop of [getGlobalInventory]: the running [totalQuantity],
    [totalReserved] and [warehouses] array. *)
Fixpoint globalLoop (productId : string) (ws : JsMap.t Warehouse)
    (acc : Z * Z * list WarehouseStock) : Z * Z * list WarehouseStock :=
  match ws with
  | [] => acc
  | (warehouseId, warehouse) :: rest =>
      match wh_inventory warehouse !! productId with
      | Some inventory =>
          let '(totalQuantity, totalReserved, out) := acc in
          globalLoop productId rest
            (totalQuantity + quantity inventory,
             totalReserved + reserved inventory,
             out ++ [ {| st_warehouseId := warehouseId;
                         st_location := wh_location warehouse;
                         st_quantity := quantity inventory;
                         st_reserved := reserved inventory;
                         st_available :=
                           quantity inventory - reserved inventory |} ])
      | None => globalLoop productId rest acc
      end
  end.

(** [getGlobalInventory(productId)]; [now] is what [Date.now()] returns
    when the result object is built. *)
Definition getGlobalInventory (now : Z) (s : Engine) (productId : string)
  : GlobalInventory :=
  let '(totalQuantity, totalReserved, out) :=
    globalLoop productId (warehouses s) (0, 0, []) in
  {| gi_productId := productId;
     gi_totalQuantity := totalQuantity;
     gi_totalReserved := totalReserved;
     gi_totalAvailable := totalQuantity - totalReserved;
     gi_warehouses := out;
     gi_lastUpdated := now |}.

(** ** Fulfillment selector *)

Record Candidate : Type := mkCandidate {
  cd_warehouseId : string;
  cd_location : string;
  cd_available : Z;
  cd_distance : Z;
  cd_estimatedShipping : string
}.

(** [calculateDistance(location1, location2)] ignores both locations; [r]
    is the value of [Math.floor(Math.random() * 1000)] of this call. *)
Definition calculateDistance (location1 location2 : string) (r : Z) : Z :=
  r + 50.

(** [estimateShipping(distance)] *)
Definition estimateShipping (distance : Z) : string :=
  if distance <? 100 then "1-2 days"
  else if distance <? 500 then "2-3 days"
  else if distance <? 1000 then "3-5 days"
  else "5-7 days".

(** The test of the loop of [findOptimalWarehouse]. *)
Definition qualifies (productId : string) (qty : Z) (warehouse : Warehouse)
  : bool :=
  match wh_inventory warehouse !! productId with
  | Some inventory => quantity inventory - reserved inventory >=? qty
  | None => false
  end.

(** The loop of [findOptimalWarehouse].  [draw k] is the random value read
    by the [k]-th call of [calculateDistance]; [k] counts the calls made so
    far. *)
Fixpoint candidatesLoop (draw : nat -> Z) (productId : string) (qty : Z)
    (shippingAddress : string) (ws : JsMap.t Warehouse) (k : nat)
  : list Candidate :=
  match ws with
  | [] => []
  | (warehouseId, warehouse) :: rest =>
      match wh_inventory warehouse !! productId with
      | Some inventory =>
          if quantity inventory - reserved inventory >=? qty then
            let distance :=
              calculateDistance (wh_location warehouse) shippingAddress
                (draw k) in
            {| cd_warehouseId := warehouseId;
               cd_location := wh_location warehouse;
               cd_available := quantity inventory - reserved inventory;
               cd_distance := distance;
               cd_estimatedShipping := estimateShipping distance |}
            :: candidatesLoop draw productId qty shippingAddress rest (S k)
          else candidatesLoop draw productId qty shippingAddress rest k
      | None => candidatesLoop draw productId qty shippingAddress rest k
      end
  end.

(** [candidates.sort((a, b) => a.distance - b.distance)]: [Array.prototype.sort]
    is stable, so candidates of equal distance keep their relative order.
    A stable insertion sort computes the same array. *)
Fixpoint insertByDistance (c : Candidate) (sorted : list Candidate)
  : list Candidate :=
  match sorted with
  | [] => [c]
  | c' :: rest =>
      if cd_distance c <=? cd_distance c' then c :: sorted
      else c' :: insertByDistance c rest
  end.

Definition sortByDistance (cs : list Candidate) : list Candidate :=
  foldr insertByDistance [] cs.

(** [findOptimalWarehouse(productId, quantity, shippingAddress)];
    [None] is [null]. *)
Definition findOptimalWarehouse (draw : nat -> Z) (s : Engine)
    (productId : string) (qty : Z) (shippingAddress : string)
  : option Candidate :=
  head (sortByDistance
          (candidatesLoop draw productId qty shippingAddress (warehouses s) 0)).

(** ** Sync status *)

Record WarehouseStatus : Type := mkStatus {
  ss_warehouseId : string;
  ss_location : string;
  ss_status : string;
  ss_itemCount : nat;
  ss_lastSync : option Z;
  ss_lag : Z;
  ss_healthy : bool
}.

Record SyncStatus : Type := mkSyncStatus {
  sy_warehouses : list WarehouseStatus;
  sy_totalWarehouses : nat;
  sy_activeWarehouses : nat;
  sy_queueLength : nat;
  sy_conflicts : nat;
  sy_unresolvedConflicts : nat;
  sy_avgLag : option Q;
  sy_healthy : bool
}.

Definition statusOf (entry : string * Warehouse) : WarehouseStatus :=
  let '(warehouseId, warehouse) := entry in
  {| ss_warehouseId := warehouseId;
     ss_location := wh_location warehouse;
     ss_status := wh_status warehouse;
     ss_itemCount := size (wh_inventory warehouse);
     ss_lastSync := wh_lastSync warehouse;
     ss_lag := wh_lag warehouse;
     ss_healthy := wh_lag warehouse <? 10 |}.

(** [totalLag / this.warehouses.size]: a quotient of two integers, and
    [NaN] ([None]) when no warehouse is registered. *)
Definition averageLag (totalLag : Z) (count : nat) : option Q :=
  match count with
  | O => None
  | S _ => Some (Qmake totalLag (Pos.of_nat count))
  end.

(** [getSyncStatus()] *)
Definition getSyncStatus (s : Engine) : SyncStatus :=
  let warehouseStatus := map statusOf (warehouses s) in
  let totalLag := foldl (fun acc st => acc + ss_lag st) 0 warehouseStatus in
  let count := length (warehouses s) in
  {| sy_warehouses := warehouseStatus;
     sy_totalWarehouses := count;
     sy_activeWarehouses :=
       length (filter (fun w => String.eqb (ss_status w) "active" = true)
                 warehouseStatus);
     sy_queueLength := length (syncQueue s);
     sy_conflicts := length (conflicts s);
     sy_unresolvedConflicts :=
       length (filter (fun c => negb (cf_resolved c) = true) (conflicts s));
     sy_avgLag := averageLag totalLag count;
     sy_healthy :=
       match averageLag totalLag count with
       | Some avg => if Qlt_le_dec avg (5 # 1) then true else false
       | None => false
       end |}.

(** ** Calls of the public interface *)

Inductive Call : Type :=
  | CallRegister (warehouseId location : string)
  | CallUpdate (env : Env) (warehouseId productId : string) (qty : Z)
      (operation : string)
  | CallReserve (env : Env) (warehouseId productId : string) (qty : Z)
  | CallRelease (env : Env) (warehouseId productId : string) (qty : Z)
  | CallCommit (env1 env2 : Env) (warehouseId productId : string) (qty : Z)
  | CallSyncExternal (warehouseId : string)
      (inventoryData : list (Env * (string * Z))).

(** The engine after a call, whether the call returned or threw. *)
Definition run (c : Call) (s : Engine) : Engine :=
  match c with
  | CallRegister warehouseId location =>
      registerWarehouse warehouseId location s
  | CallUpdate env warehouseId productId qty operation =>
      fst (updateInventory env warehouseId productId qty operation s)
  | CallReserve env warehouseId productId qty =>
      fst (reserveInventory env warehouseId productId qty s)
  | CallRelease env warehouseId productId qty =>
      fst (releaseInventory env warehouseId productId qty s)
  | CallCommit env1 env2 warehouseId productId qty =>
      fst (commitReservation env1 env2 warehouseId productId qty s)
  | CallSyncExternal warehouseId inventoryData =>
      fst (syncFromExternalSystem warehouseId inventoryData s)
  end.

Definition runAll (cs : list Call) (s : Engine) : Engine :=
  foldl (fun st c => run c st) s cs.

(** The values a call passes as quantities are all non-negative. *)
Definition valuesNonNegative (c : Call) : bool :=
  match c with
  | CallRegister _ _ => true
  | CallUpdate _ _ _ qty _ => 0 <=? qty
  | CallReserve _ _ _ qty => 0 <=? qty
  | CallRelease _ _ _ qty => 0 <=? qty
  | CallCommit _ _ _ _ qty => 0 <=? qty
  | CallSyncExternal _ items => forallb (fun it => 0 <=? snd (snd it)) items
  end.

(** ** Predicates on the stock counters of all records *)

(** [0 ≤ quantity] and [0 ≤ reserved]. *)
Definition nonNegative (q r : Z) : bool := (0 <=? q) && (0 <=? r).

(** [0 ≤ reserved ≤ quantity]. *)
Definition reservedWithinQuantity (q r : Z) : bool := (0 <=? r) && (r <=? q).

Definition warehouseSatisfies (f : Z -> Z -> bool) (w : Warehouse) : bool :=
  forallb (fun pr => f (quantity (snd pr)) (reserved (snd pr)))
    (map_to_list (wh_inventory w)).

Definition engineSatisfies (f : Z -> Z -> bool) (s : Engine) : bool :=
  forallb (fun kw => warehouseSatisfies f (snd kw)) (warehouses s).

(** A fixed environment for examples: every clock reading is [t]. *)
Definition envAt (t : Z) : Env :=
  {| env_updateId := "upd"; env_now := t;
     env_conflictId := fun _ => "conf";
     env_conflictTime := fun _ => t;
     env_syncTime := fun _ => t |}.

(** The operation strings the switch of [applyUpdate] recognises. *)
Definition knownOperations : list string :=
  ["set"; "add"; "subtract"; "reserve"; "release"].

(** A predicate on the counters is preserved by an operation with a given
    value when every non-throwing run of the switch preserves it. *)
Definition preservedBy (f : Z -> Z -> bool) (op : string) (v : Z) : Prop :=
  ∀ q r q' r',
    f q r = true → applyOperation op q r v = Ok (q', r') → f q' r' = true.

(** Calls whose every applied operation is [add], [release] or an
    operation the switch does not recognise, and registrations. *)
Definition keepsReservedBound (c : Call) : bool :=
  match c with
  | CallRegister _ _ => true
  | CallUpdate _ _ _ _ op =>
      negb (String.eqb op "set" || String.eqb op "subtract"
            || String.eqb op "reserve")
  | CallRelease _ _ _ _ => true
  | _ => false
  end.

(** The warehouse a target becomes when an update is synced to it; the
    conflict log plays no part in it. *)
Definition syncedWarehouse (env : Env) (warehouse : Warehouse)
    (update : InventoryUpdate) : Warehouse :=
  fst (syncToWarehouse env warehouse update []).

(** The warehouse stored under a key after the loop of [propagateUpdate]. *)
Definition propagated (env : Env) (u : InventoryUpdate) (k : string)
    (w : Warehouse) : Warehouse :=
  if negb (String.eqb k (upd_warehouseId u))
     && String.eqb (wh_status w) "active"
  then syncedWarehouse env w u else w.

(** The warehouse object that [registerWarehouse] stores. *)
Definition freshWarehouse (warehouseId location : string) : Warehouse :=
  {| wh_id := warehouseId; wh_location := location; wh_inventory := ∅;
     wh_lastSync := None; wh_status := "active"; wh_lag := 0 |}.

(** An entry of the registry as the calls of the interface leave it: the
    warehouse carries its key as identifier, is active, and its lag is not
    negative. *)
Definition entryWellFormed (entry : string * Warehouse) : Prop :=
  wh_id (snd entry) = fst entry
  ∧ wh_status (snd entry) = "active"
  ∧ 0 ≤ wh_lag (snd entry).

(** A conflict as [handleConflict] leaves it in the log for an update:
    it refers to the update and its product, and it is either resolved
    with a resolution tag or, when the update is a reservation, left
    unresolved without one. *)
Definition loggedFor (u : InventoryUpdate) (c : Conflict) : Prop :=
  cf_incomingUpdate c = u
  ∧ cf_productId c = upd_productId u
  ∧ ((cf_resolved c = true
      ∧ (cf_resolution c = Some "accepted_incoming"
         ∨ cf_resolution c = Some "kept_current"))
     ∨ (cf_resolved c = false ∧ cf_resolution c = None
        ∧ upd_operation u = "reserve")).

(** The sum of a field over the entries of a breakdown. *)
Definition sumOf (f : WarehouseStock → Z) (entries : list WarehouseStock) : Z :=
  foldr (fun e acc => f e + acc) 0 entries.

(** Two registries that list the same identifiers in the same order with
    the same locations and inventories; status, lag and last sync may
    differ. *)
Definition sameStock (ws1 ws2 : JsMap.t Warehouse) : Prop :=
  Forall2 (fun a b => fst a = fst b
                      ∧ wh_location (snd a) = wh_location (snd b)
                      ∧ wh_inventory (snd a) = wh_inventory (snd b))
    ws1 ws2.

(** The same warehouse with another status. *)
Definition withStatus (status : string) (warehouse : Warehouse) : Warehouse :=
  {| wh_id := wh_id warehouse; wh_location := wh_location warehouse;
     wh_inventory := wh_inventory warehouse;
     wh_lastSync := wh_lastSync warehouse;
     wh_status := status;
     wh_lag := wh_lag warehouse |}.

(** The quantity the last item for a product carries, if the batch has an
    item for the product. *)
Fixpoint lastSetFor (productId : string) (items : list (Env * (string * Z)))
  : option Z :=
  match items with
  | [] => None
  | (_, (p, q)) :: rest =>
      match lastSetFor productId rest with
      | Some q' => Some q'
      | None => if String.eqb productId p then Some q else None
      end
  end.

(** The fields of a logged conflict that nothing assigns once
    [handleConflict] has returned: all of them but the reserved count of
    the record object it references. *)
Definition fixedFields (c : Conflict)
  : string * string * string * InventoryUpdate * (Z * Z * Z) * Z * bool
    * option string :=
  (cf_id c, cf_warehouseId c, cf_productId c, cf_incomingUpdate c,
   (quantity (cf_currentState c), version (cf_currentState c),
    lastUpdated (cf_currentState c)),
   cf_timestamp c, cf_resolved c, cf_resolution c).

(** A logged conflict [c'] is the conflict [c] after an update of
    [productId]: the fixed fields are the same, and the conflict is the
    same altogether unless it referenced a stored record of that
    product. *)
Definition carriedOver (productId : string) (c c' : Conflict) : Prop :=
  fixedFields c' = fixedFields c
  ∧ (cf_shared c = false → c' = c)
  ∧ (cf_productId c ≠ productId → c' = c).

(** * Properties *)

(** ** Insertion-ordered maps *)

Section JsMapFacts.
Context {V : Type}.
Implicit Types (m : JsMap.t V) (k : string) (v : V).

Lemma get_set_eq k v m : JsMap.get k (JsMap.set k v m) = Some v.
Proof.
  induction m as [|[k' v'] m IH]; simpl.
  - by rewrite String.eqb_refl.
  - destruct (String.eqb k k') eqn:E; simpl; rewrite E; auto.
Qed.

Lemma get_set_ne k k' v m :
  k ≠ k' → JsMap.get k' (JsMap.set k v m) = JsMap.get k' m.
Proof.
  intros Hne. induction m as [|[k0 v0] m IH]; simpl.
  - destruct (String.eqb k' k) eqn:E; [|done].
    apply String.eqb_eq in E. congruence.
  - destruct (String.eqb k k0) eqn:E; simpl.
    + apply String.eqb_eq in E. subst k0.
      destruct (String.eqb k' k) eqn:E'; [|done].
      apply String.eqb_eq in E'. congruence.
    + by rewrite IH.
Qed.

Lemma keys_set_present k v m :
  is_Some (JsMap.get k m) → JsMap.keys (JsMap.set k v m) = JsMap.keys m.
Proof.
  induction m as [|[k' v'] m IH]; simpl.
  - by intros [? ?].
  - destruct (String.eqb k k') eqn:E; simpl; [done|].
    intros H. by rewrite IH.
Qed.

Lemma keys_set_absent k v m :
  JsMap.get k m = None → JsMap.keys (JsMap.set k v m) = JsMap.keys m ++ [k].
Proof.
  induction m as [|[k' v'] m IH]; simpl; [done|].
  destruct (String.eqb k k') eqn:E; simpl; [done|].
  intros H. by rewrite IH.
Qed.

Lemma elem_of_set k v m k' v' :
  (k', v') ∈ JsMap.set k v m → (k', v') ∈ m ∨ (k' = k ∧ v' = v).
Proof.
  induction m as [|[k0 v0] m IH]; simpl.
  - intros Heq%list_elem_of_singleton. inversion Heq. by right.
  - destruct (String.eqb k k0) eqn:E.
    + apply String.eqb_eq in E. subst k0.
      intros [Heq|Hin]%elem_of_cons.
      * right. by inversion Heq.
      * left. by apply elem_of_cons; right.
    + intros [Heq|Hin]%elem_of_cons.
      * left. rewrite Heq. by apply elem_of_cons; left.
      * destruct (IH Hin) as [?|?]; [left|by right].
        by apply elem_of_cons; right.
Qed.

Lemma get_Some_elem_of k v m : JsMap.get k m = Some v → (k, v) ∈ m.
Proof.
  induction m as [|[k' v'] m IH]; simpl; [done|].
  destruct (String.eqb k k') eqn:E.
  - apply String.eqb_eq in E. subst k'. intros [= ->].
    by apply elem_of_cons; left.
  - intros H. apply elem_of_cons; right. auto.
Qed.

End JsMapFacts.

(** ** Counter predicates hold record by record *)

Lemma warehouseSatisfies_spec f w :
  warehouseSatisfies f w = true ↔
  ∀ p r, wh_inventory w !! p = Some r → f (quantity r) (reserved r) = true.
Proof.
  unfold warehouseSatisfies. rewrite forallb_forall. split.
  - intros H p r Hpr. apply (H (p, r)).
    apply list_elem_of_In. by apply elem_of_map_to_list.
  - intros H [p r] Hin. apply (H p r).
    apply elem_of_map_to_list. by apply list_elem_of_In.
Qed.

Lemma engineSatisfies_spec f s :
  engineSatisfies f s = true ↔
  ∀ k w, (k, w) ∈ warehouses s → warehouseSatisfies f w = true.
Proof.
  unfold engineSatisfies. rewrite forallb_forall. split.
  - intros H k w Hin. apply (H (k, w)). by apply list_elem_of_In.
  - intros H [k w] Hin. apply (H k w). by apply list_elem_of_In.
Qed.

Lemma warehouseSatisfies_ext f w w' :
  wh_inventory w = wh_inventory w' →
  warehouseSatisfies f w = warehouseSatisfies f w'.
Proof. unfold warehouseSatisfies. by intros ->. Qed.

(** ** The switch of [applyUpdate], case by case *)

Lemma applyOperation_set q r v : applyOperation "set" q r v = Ok (v, r).
Proof. reflexivity. Qed.

Lemma applyOperation_add q r v : applyOperation "add" q r v = Ok (q + v, r).
Proof. reflexivity. Qed.

Lemma applyOperation_subtract q r v :
  applyOperation "subtract" q r v = Ok (Z.max 0 (q - v), r).
Proof. reflexivity. Qed.

Lemma applyOperation_reserve q r v :
  applyOperation "reserve" q r v =
  if q >=? v then Ok (q, r + v) else Throw (InsufficientInventory v).
Proof. reflexivity. Qed.

Lemma applyOperation_release q r v :
  applyOperation "release" q r v = Ok (q, Z.max 0 (r - v)).
Proof. reflexivity. Qed.

Lemma applyOperation_unknown op q r v :
  op ∉ knownOperations → applyOperation op q r v = Ok (q, r).
Proof.
  intros Hop. unfold applyOperation.
  repeat match goal with
  | |- context [String.eqb op ?c] =>
      destruct (String.eqb_spec op c) as [->|?];
      [ exfalso; apply Hop; unfold knownOperations;
        repeat first [ apply list_elem_of_here | apply list_elem_of_further ]
      | ]
  end.
  reflexivity.
Qed.

(** Only [reserve] can throw. *)
Lemma applyOperation_throws op q r v e :
  applyOperation op q r v = Throw e →
  op = "reserve" ∧ q < v ∧ e = InsufficientInventory v.
Proof.
  unfold applyOperation.
  repeat match goal with
  | |- context [String.eqb op ?c] =>
      destruct (String.eqb_spec op c) as [->|?]
  end; try discriminate.
  destruct (q >=? v) eqn:Hq; [discriminate|].
  intros [= <-]. split; [done|]. split; [lia|done].
Qed.

Lemma nonNegative_preserved op v : 0 ≤ v → preservedBy nonNegative op v.
Proof.
  intros Hv q r q' r' Hf. unfold nonNegative in *.
  apply andb_true_iff in Hf as [Hq%Z.leb_le Hr%Z.leb_le].
  unfold applyOperation.
  repeat match goal with
  | |- context [String.eqb op ?c] => destruct (String.eqb op c)
  end;
  try destruct (q >=? v) eqn:Hge; intros [= <- <-];
  apply andb_true_iff; split; apply Z.leb_le; lia.
Qed.

Lemma reservedWithinQuantity_preserved_add v :
  0 ≤ v → preservedBy reservedWithinQuantity "add" v.
Proof.
  intros Hv q r q' r' Hf. rewrite applyOperation_add. intros [= <- <-].
  unfold reservedWithinQuantity in *.
  apply andb_true_iff in Hf as [Hq%Z.leb_le Hr%Z.leb_le].
  apply andb_true_iff; split; apply Z.leb_le; lia.
Qed.

Lemma reservedWithinQuantity_preserved_release v :
  0 ≤ v → preservedBy reservedWithinQuantity "release" v.
Proof.
  intros Hv q r q' r' Hf. rewrite applyOperation_release. intros [= <- <-].
  unfold reservedWithinQuantity in *.
  apply andb_true_iff in Hf as [Hq%Z.leb_le Hr%Z.leb_le].
  apply andb_true_iff; split; apply Z.leb_le; lia.
Qed.

Lemma reservedWithinQuantity_preserved_unknown op v :
  op ∉ knownOperations → preservedBy reservedWithinQuantity op v.
Proof.
  intros Hop q r q' r' Hf. rewrite applyOperation_unknown by done.
  by intros [= <- <-].
Qed.

(** ** Preservation through the applier and the propagator *)

Section Preservation.
Variable f : Z -> Z -> bool.
Hypothesis f_default : f 0 0 = true.

Lemma applyUpdate_preserves w u w' x :
  preservedBy f (upd_operation u) (upd_quantity u) →
  warehouseSatisfies f w = true →
  applyUpdate w u = Ok (w', x) →
  warehouseSatisfies f w' = true.
Proof.
  intros Hop Hw. unfold applyUpdate.
  destruct (applyOperation _ _ _ _) as [[q' r']|e] eqn:Happ; [|done].
  intros [= <- <-]. apply warehouseSatisfies_spec. simpl.
  intros p rec. rewrite lookup_insert.
  case_decide as Hp.
  - intros [= <-]. simpl. eapply Hop; [|exact Happ].
    destruct (wh_inventory w !! upd_productId u) as [cur|] eqn:Hcur; simpl.
    + by eapply warehouseSatisfies_spec.
    + exact f_default.
  - by apply warehouseSatisfies_spec.
Qed.

Lemma handleConflict_preserves env w u current log w' log' :
  preservedBy f (upd_operation u) (upd_quantity u) →
  warehouseSatisfies f w = true →
  handleConflict env w u current log = (Ok w', log') →
  warehouseSatisfies f w' = true.
Proof.
  intros Hop Hw. unfold handleConflict.
  destruct (upd_timestamp u >? lastUpdated current).
  - destruct (applyUpdate w u) as [[w1 x]|e] eqn:Happ; [|done].
    intros [= <- <-]. by eapply applyUpdate_preserves.
  - by intros [= <- <-].
Qed.

Lemma syncToWarehouse_preserves env w u log :
  preservedBy f (upd_operation u) (upd_quantity u) →
  warehouseSatisfies f w = true →
  warehouseSatisfies f (fst (syncToWarehouse env w u log)) = true.
Proof.
  intros Hop Hw. unfold syncToWarehouse.
  assert (Hplain :
    warehouseSatisfies f
      (fst (match applyUpdate w u with
            | Ok (w1, x) =>
                (withLastSync (env_syncTime env (wh_id w)) w1,
                 recordReplaced w (upd_productId u) x log)
            | Throw _ => (withLagIncremented w, log)
            end)) = true).
  { destruct (applyUpdate w u) as [[w1 x]|e] eqn:Happ; simpl.
    - rewrite (warehouseSatisfies_ext f _ w1) by done.
      eapply applyUpdate_preserves; [exact Hop|exact Hw|exact Happ].
    - by rewrite (warehouseSatisfies_ext f _ w). }
  destruct (wh_inventory w !! upd_productId u) as [current|]; [|done].
  destruct (version current >=? upd_version u); [|done].
  destruct (handleConflict env w u current log) as [[w1|e] log'] eqn:Hc; simpl.
  - eapply handleConflict_preserves; [exact Hop|exact Hw|exact Hc].
  - by rewrite (warehouseSatisfies_ext f _ w).
Qed.

Lemma propagateLoop_preserves env u ws log :
  preservedBy f (upd_operation u) (upd_quantity u) →
  forallb (fun kw => warehouseSatisfies f (snd kw)) ws = true →
  forallb (fun kw => warehouseSatisfies f (snd kw))
    (fst (propagateLoop env u ws log)) = true.
Proof.
  intros Hop. revert log. induction ws as [|[k w] ws IH]; intros log; [done|].
  simpl. intros [Hw Hws]%andb_true_iff.
  destruct (negb (String.eqb k (upd_warehouseId u))
            && String.eqb (wh_status w) "active").
  - pose proof (syncToWarehouse_preserves env w u log Hop Hw) as Hs.
    destruct (syncToWarehouse env w u log) as [w1 log1].
    specialize (IH log1 Hws).
    destruct (propagateLoop env u ws log1) as [ws' log2]. simpl in *.
    by rewrite Hs, IH.
  - specialize (IH log Hws).
    destruct (propagateLoop env u ws log) as [ws' log2]. simpl in *.
    by rewrite Hw, IH.
Qed.

Lemma set_preserves k w ws :
  warehouseSatisfies f w = true →
  forallb (fun kw => warehouseSatisfies f (snd kw)) ws = true →
  forallb (fun kw => warehouseSatisfies f (snd kw)) (JsMap.set k w ws) = true.
Proof.
  intros Hw. induction ws as [|[k' w'] ws IH]; simpl.
  - by rewrite Hw.
  - intros [Hw' Hws]%andb_true_iff.
    destruct (String.eqb k k'); simpl.
    + by rewrite Hw, Hws.
    + by rewrite Hw', IH.
Qed.

Lemma updateInventory_preserves env wid pid v op s :
  preservedBy f op v →
  engineSatisfies f s = true →
  engineSatisfies f (fst (updateInventory env wid pid v op s)) = true.
Proof.
  intros Hop Hs. unfold updateInventory.
  destruct (JsMap.get wid (warehouses s)) as [w|] eqn:Hget; [|done].
  destruct (applyUpdate w _) as [[w' x]|e] eqn:Happ; [|done].
  unfold engineSatisfies, propagateUpdate. simpl.
  pose proof (propagateLoop_preserves env
    (makeUpdate env s wid pid v op)
    (JsMap.set wid w' (warehouses s))
    (recordReplaced w pid x (conflicts s)) Hop) as Hp.
  destruct (propagateLoop _ _ _ _) as [ws' log']. simpl in *.
  apply Hp. apply set_preserves; [|done].
  apply (applyUpdate_preserves w (makeUpdate env s wid pid v op) w' x);
    [exact Hop| |exact Happ].
  apply (proj1 (engineSatisfies_spec f s) Hs wid).
  by apply get_Some_elem_of.
Qed.

Lemma registerWarehouse_preserves wid loc s :
  engineSatisfies f s = true →
  engineSatisfies f (registerWarehouse wid loc s) = true.
Proof. intros Hs. by apply set_preserves. Qed.

End Preservation.

(** ** Stock counters across the calls of the interface *)

Lemma syncItems_preserves f wid items s :
  f 0 0 = true →
  (∀ it, it ∈ items → preservedBy f "set" (snd (snd it))) →
  engineSatisfies f s = true →
  engineSatisfies f (fst (syncItems wid items s)) = true.
Proof.
  intros Hf. revert s.
  induction items as [|[env [pid qty]] items IH]; intros s Hall Hs; [done|].
  simpl.
  pose proof (updateInventory_preserves f Hf env wid pid qty "set" s
                (Hall _ (list_elem_of_here _ _)) Hs) as H1.
  destruct (updateInventory env wid pid qty "set" s) as [s1 [u|e]]; [|done].
  simpl in H1.
  assert (Hrest : ∀ it, it ∈ items → preservedBy f "set" (snd (snd it))).
  { intros it Hit. apply Hall. by apply list_elem_of_further. }
  specialize (IH s1 Hrest H1).
  by destruct (syncItems wid items s1) as [s2 [us|e]].
Qed.

Lemma run_preserves_nonNegative c s :
  valuesNonNegative c = true →
  engineSatisfies nonNegative s = true →
  engineSatisfies nonNegative (run c s) = true.
Proof.
  intros Hc Hs. destruct c as [wid loc|env wid pid v op|env wid pid v
    |env wid pid v|env1 env2 wid pid v|wid items]; simpl in *.
  - by apply registerWarehouse_preserves.
  - apply updateInventory_preserves; [done| |done].
    apply nonNegative_preserved. by apply Z.leb_le.
  - apply updateInventory_preserves; [done| |done].
    apply nonNegative_preserved. by apply Z.leb_le.
  - apply updateInventory_preserves; [done| |done].
    apply nonNegative_preserved. by apply Z.leb_le.
  - apply Z.leb_le in Hc. unfold commitReservation, releaseInventory.
    pose proof (updateInventory_preserves nonNegative eq_refl env1 wid pid v
                  "release" s (nonNegative_preserved _ _ Hc) Hs) as H1.
    destruct (updateInventory env1 wid pid v "release" s) as [s1 [u|e]];
      [|done].
    pose proof (updateInventory_preserves nonNegative eq_refl env2 wid pid v
                  "subtract" s1 (nonNegative_preserved _ _ Hc) H1) as H2.
    by destruct (updateInventory env2 wid pid v "subtract" s1) as [s2 [u2|e]].
  - unfold syncFromExternalSystem.
    destruct (JsMap.get wid (warehouses s)); [|done].
    apply syncItems_preserves; [done| |done].
    intros it Hit. apply nonNegative_preserved.
    rewrite forallb_forall in Hc. apply Z.leb_le, Hc.
    by apply list_elem_of_In.
Qed.

Lemma run_preserves_reservedWithinQuantity c s :
  valuesNonNegative c = true →
  keepsReservedBound c = true →
  engineSatisfies reservedWithinQuantity s = true →
  engineSatisfies reservedWithinQuantity (run c s) = true.
Proof.
  intros Hc Hk Hs. destruct c as [wid loc|env wid pid v op|env wid pid v
    |env wid pid v|env1 env2 wid pid v|wid items]; simpl in *; try done.
  - by apply registerWarehouse_preserves.
  - apply Z.leb_le in Hc.
    apply updateInventory_preserves; [done| |done].
    destruct (String.eqb_spec op "add") as [->|Hadd];
      [by apply reservedWithinQuantity_preserved_add|].
    destruct (String.eqb_spec op "release") as [->|Hrel];
      [by apply reservedWithinQuantity_preserved_release|].
    apply reservedWithinQuantity_preserved_unknown.
    apply negb_true_iff in Hk.
    apply orb_false_iff in Hk as [Hk Hres].
    apply orb_false_iff in Hk as [Hset Hsub].
    apply String.eqb_neq in Hset, Hsub, Hres.
    unfold knownOperations. rewrite !elem_of_cons, elem_of_nil. tauto.
  - apply Z.leb_le in Hc.
    apply updateInventory_preserves; [done| |done].
    by apply reservedWithinQuantity_preserved_release.
Qed.

(** A reservation that passes the availability test of the specification
    keeps the reserved count within the quantity on the record it is
    applied to. *)
Lemma reserve_within_available q r v q' r' :
  0 ≤ v → v ≤ q - r →
  reservedWithinQuantity q r = true →
  applyOperation "reserve" q r v = Ok (q', r') →
  reservedWithinQuantity q' r' = true.
Proof.
  intros Hv Hav Hf. rewrite applyOperation_reserve.
  unfold reservedWithinQuantity in *.
  apply andb_true_iff in Hf as [Hr%Z.leb_le Hq%Z.leb_le].
  destruct (q >=? v); [|done]. intros [= <- <-].
  apply andb_true_iff; split; apply Z.leb_le; lia.
Qed.

(** ** What propagation does to each entry of the registry *)

Lemma handleConflict_fst_log env w u current log log' :
  fst (handleConflict env w u current log)
  = fst (handleConflict env w u current log').
Proof.
  unfold handleConflict.
  destruct (upd_timestamp u >? lastUpdated current); [|done].
  by destruct (applyUpdate w u) as [[w1 x]|e].
Qed.

Lemma syncToWarehouse_fst_log env w u log :
  fst (syncToWarehouse env w u log) = syncedWarehouse env w u.
Proof.
  unfold syncedWarehouse, syncToWarehouse.
  destruct (wh_inventory w !! upd_productId u) as [current|].
  - destruct (version current >=? upd_version u).
    + pose proof (handleConflict_fst_log env w u current log []) as H.
      destruct (handleConflict env w u current log) as [[w1|e1] l1],
               (handleConflict env w u current []) as [[w2|e2] l2];
        simpl in *; congruence.
    + by destruct (applyUpdate w u) as [[w1 x]|e].
  - by destruct (applyUpdate w u) as [[w1 x]|e].
Qed.

Lemma get_propagateLoop env u ws log k :
  JsMap.get k (fst (propagateLoop env u ws log))
  = propagated env u k <$> JsMap.get k ws.
Proof.
  revert log. induction ws as [|[k' w] ws IH]; intros log; [done|].
  simpl.
  set (b := negb (String.eqb k' (upd_warehouseId u))
            && String.eqb (wh_status w) "active").
  assert (Hw : fst (if b then syncToWarehouse env w u log else (w, log))
               = propagated env u k' w).
  { unfold propagated. fold b. destruct b; [|done].
    apply syncToWarehouse_fst_log. }
  destruct (if b then syncToWarehouse env w u log else (w, log))
    as [w1 log1].
  specialize (IH log1).
  destruct (propagateLoop env u ws log1) as [ws' log2]. simpl in *.
  destruct (String.eqb_spec k k') as [->|Hne]; [|done].
  simpl. by rewrite Hw.
Qed.

Lemma propagateUpdate_syncQueue env u s :
  syncQueue (propagateUpdate env u s) = syncQueue s.
Proof.
  unfold propagateUpdate. by destruct (propagateLoop _ _ _ _).
Qed.

Lemma get_propagateUpdate env u s k :
  JsMap.get k (warehouses (propagateUpdate env u s))
  = propagated env u k <$> JsMap.get k (warehouses s).
Proof.
  unfold propagateUpdate.
  pose proof (get_propagateLoop env u (warehouses s) (conflicts s) k) as H.
  by destruct (propagateLoop _ _ _ _).
Qed.

(** ** Reservations *)

(** On a registered warehouse a reservation returns exactly when the
    on-hand quantity covers the requested value; the reserved count takes
    no part in the test. *)
Lemma reserveInventory_returns_iff env wid pid v s w :
  JsMap.get wid (warehouses s) = Some w →
  isOk (snd (reserveInventory env wid pid v s)) = true
  ↔ v ≤ curQuantityOf (wh_inventory w !! pid).
Proof.
  intros Hget. unfold reserveInventory, updateInventory. rewrite Hget.
  unfold applyUpdate. simpl. rewrite applyOperation_reserve.
  destruct (curQuantityOf (wh_inventory w !! pid) >=? v) eqn:Hq; simpl.
  - split; [lia|done].
  - split; [done|lia].
Qed.

(** A call of [updateInventory] that throws leaves every warehouse and
    the conflict log as they were. *)
Lemma updateInventory_throw_frame env wid pid v op s e :
  snd (updateInventory env wid pid v op s) = Throw e →
  warehouses (fst (updateInventory env wid pid v op s)) = warehouses s
  ∧ conflicts (fst (updateInventory env wid pid v op s)) = conflicts s.
Proof.
  unfold updateInventory.
  destruct (JsMap.get wid (warehouses s)) as [w|]; [|done].
  by destruct (applyUpdate w _) as [[w' x]|e'].
Qed.

(** C2 — the code at an input where the specification's test and the
    code's test disagree: warehouse A holds 10 units of which 8 are
    reserved, so 2 are available; reserving 5 more returns normally and
    leaves 13 reserved out of 10. *)
Theorem C2_reserve_exceeds_available :
  let s0 := runAll [CallRegister "A" "X";
                    CallUpdate (envAt 1) "A" "sku1" 10 "set";
                    CallReserve (envAt 2) "A" "sku1" 8] newEngine in
  let out := reserveInventory (envAt 3) "A" "sku1" 5 s0 in
  wh_inventory <$> JsMap.get "A" (warehouses s0)
    = Some {[ "sku1" := {| quantity := 10; reserved := 8; version := 2;
                           lastUpdated := 2 |} ]}
  ∧ isOk (snd out) = true
  ∧ wh_inventory <$> JsMap.get "A" (warehouses (fst out))
    = Some {[ "sku1" := {| quantity := 10; reserved := 13; version := 3;
                           lastUpdated := 3 |} ]}.
Proof. vm_compute. done. Qed.

(** ** Operations the switch does not recognise *)




(** ** The sync queue *)

Lemma updateInventory_syncQueue env wid pid v op s w :
  JsMap.get wid (warehouses s) = Some w →
  syncQueue (fst (updateInventory env wid pid v op s))
  = syncQueue s ++ [makeUpdate env s wid pid v op].
Proof.
  intros Hget. unfold updateInventory. rewrite Hget.
  destruct (applyUpdate w _) as [[w' x]|e]; [|done].
  simpl. by rewrite propagateUpdate_syncQueue.
Qed.

Lemma updateInventory_syncQueue_prefix env wid pid v op s :
  syncQueue s `prefix_of` syncQueue (fst (updateInventory env wid pid v op s)).
Proof.
  destruct (JsMap.get wid (warehouses s)) as [w|] eqn:Hget.
  - erewrite updateInventory_syncQueue by done. by eexists.
  - unfold updateInventory. by rewrite Hget.
Qed.

Lemma syncItems_syncQueue_prefix wid items s :
  syncQueue s `prefix_of` syncQueue (fst (syncItems wid items s)).
Proof.
  revert s. induction items as [|[env [pid qty]] items IH]; intros s; [done|].
  simpl.
  pose proof (updateInventory_syncQueue_prefix env wid pid qty "set" s) as H1.
  destruct (updateInventory env wid pid qty "set" s) as [s1 [u|e]]; [|done].
  specialize (IH s1).
  destruct (syncItems wid items s1) as [s2 [us|e]]; simpl in *; by etrans.
Qed.

Lemma run_syncQueue_prefix c s :
  syncQueue s `prefix_of` syncQueue (run c s).
Proof.
  destruct c as [wid loc|env wid pid v op|env wid pid v
    |env wid pid v|env1 env2 wid pid v|wid items]; simpl.
  - done.
  - apply updateInventory_syncQueue_prefix.
  - apply updateInventory_syncQueue_prefix.
  - apply updateInventory_syncQueue_prefix.
  - unfold commitReservation, releaseInventory.
    pose proof (updateInventory_syncQueue_prefix env1 wid pid v "release" s)
      as H1.
    destruct (updateInventory env1 wid pid v "release" s) as [s1 [u|e]];
      [|done].
    pose proof (updateInventory_syncQueue_prefix env2 wid pid v "subtract" s1)
      as H2.
    destruct (updateInventory env2 wid pid v "subtract" s1) as [s2 [u2|e]];
      simpl in *; by etrans.
  - unfold syncFromExternalSystem.
    destruct (JsMap.get wid (warehouses s)); [|done].
    apply syncItems_syncQueue_prefix.
Qed.

Lemma getSyncStatus_queueLength s :
  sy_queueLength (getSyncStatus s) = length (syncQueue s).
Proof. reflexivity. Qed.

(** C10 — on a registered warehouse, [updateInventory] leaves the sync
    queue extended by exactly the update it built, whether it returns or
    throws, and a call that throws has changed nothing else; no call of
    the interface shortens the queue or rewrites its entries, so the
    [queueLength] reported by [getSyncStatus] never decreases and counts
    the failed updates too. *)
Theorem C10_queue_append_only env wid pid v op (s : Engine) (w : Warehouse) :
  JsMap.get wid (warehouses s) = Some w →
  let update := makeUpdate env s wid pid v op in
  let out := updateInventory env wid pid v op s in
  syncQueue (fst out) = syncQueue s ++ [update]
  ∧ sy_queueLength (getSyncStatus (fst out))
    = S (sy_queueLength (getSyncStatus s))
  ∧ (∀ e, snd out = Throw e →
       warehouses (fst out) = warehouses s
       ∧ conflicts (fst out) = conflicts s)
  ∧ (∀ (c : Call) (s0 : Engine),
       syncQueue s0 `prefix_of` syncQueue (run c s0)
       ∧ (sy_queueLength (getSyncStatus s0)
          ≤ sy_queueLength (getSyncStatus (run c s0)))%nat).
Proof.
  intros Hget update out.
  assert (Hq : syncQueue (fst out) = syncQueue s ++ [update])
    by (by eapply updateInventory_syncQueue).
  split; [done|]. split.
  - rewrite !getSyncStatus_queueLength, Hq, length_app. simpl. lia.
  - split.
    + intros e He. by eapply updateInventory_throw_frame.
    + intros c s0. pose proof (run_syncQueue_prefix c s0) as Hp.
      split; [done|]. rewrite !getSyncStatus_queueLength.
      by apply prefix_length.
Qed.

Lemma C10_queue_append_only_witness :
  let s0 := runAll [CallRegister "A" "X";
                    CallUpdate (envAt 1) "A" "sku1" 10 "set"] newEngine in
  let out := updateInventory (envAt 2) "A" "sku1" 11 "reserve" s0 in
  snd out = Throw (InsufficientInventory 11)
  ∧ sy_queueLength (getSyncStatus s0) = 1%nat
  ∧ sy_queueLength (getSyncStatus (fst out)) = 2%nat
  ∧ warehouses (fst out) = warehouses s0.
Proof.
  intros s0 out.
  assert (Hget : JsMap.get "A" (warehouses s0)
                 = Some {| wh_id := "A"; wh_location := "X";
                           wh_inventory :=
                             {[ "sku1" := {| quantity := 10; reserved := 0;
                                             version := 1;
                                             lastUpdated := 1 |} ]};
                           wh_lastSync := None; wh_status := "active";
                           wh_lag := 0 |})
    by (vm_compute; reflexivity).
  destruct (C10_queue_append_only (envAt 2) "A" "sku1" 11 "reserve" s0 _ Hget)
    as (_ & Hlen & Hthrow & _).
  assert (Hout : snd out = Throw (InsufficientInventory 11))
    by (vm_compute; reflexivity).
  split; [exact Hout|]. split; [reflexivity|]. split.
  - subst out. rewrite Hlen. reflexivity.
  - by destruct (Hthrow _ Hout).
Defined.

(** ** Versions *)

Lemma applyUpdate_Ok_inventory w u w' x :
  applyUpdate w u = Ok (w', x) →
  ∃ rec, wh_inventory w' = <[upd_productId u := rec]> (wh_inventory w)
         ∧ version rec = upd_version u
         ∧ lastUpdated rec = upd_timestamp u.
Proof.
  unfold applyUpdate.
  destruct (applyOperation _ _ _ _) as [[q' r']|e]; [|done].
  intros [= <- <-]. simpl. eauto.
Qed.

(** The inventory of a target after a sync: untouched (the update failed
    there, or a conflict kept the current record), or rewritten at the
    update's product, either without conflict or by a conflict that
    accepted the incoming update. *)
Lemma syncedWarehouse_inventory env w u :
  wh_inventory (syncedWarehouse env w u) = wh_inventory w
  ∨ ∃ rec,
      wh_inventory (syncedWarehouse env w u)
        = <[upd_productId u := rec]> (wh_inventory w)
      ∧ version rec = upd_version u
      ∧ ((∀ cur, wh_inventory w !! upd_productId u = Some cur →
                 version cur < upd_version u)
         ∨ (∃ cur, wh_inventory w !! upd_productId u = Some cur
                   ∧ upd_version u ≤ version cur
                   ∧ lastUpdated cur < upd_timestamp u)).
Proof.
  unfold syncedWarehouse, syncToWarehouse.
  destruct (wh_inventory w !! upd_productId u) as [current|] eqn:Hcur.
  - destruct (version current >=? upd_version u) eqn:Hge.
    + unfold handleConflict.
      destruct (upd_timestamp u >? lastUpdated current) eqn:Hts;
        [|by left].
      destruct (applyUpdate w u) as [[w1 x]|e] eqn:Happ; [|by left].
      destruct (applyUpdate_Ok_inventory _ _ _ _ Happ) as (rec & Hi & Hv & _).
      right. exists rec. simpl. split; [done|]. split; [done|].
      right. exists current. split; [done|]. lia.
    + destruct (applyUpdate w u) as [[w1 x]|e] eqn:Happ; [|by left].
      destruct (applyUpdate_Ok_inventory _ _ _ _ Happ) as (rec & Hi & Hv & _).
      right. exists rec. simpl. split; [done|]. split; [done|].
      left. intros cur [= <-]. lia.
  - destruct (applyUpdate w u) as [[w1 x]|e] eqn:Happ; [|by left].
    destruct (applyUpdate_Ok_inventory _ _ _ _ Happ) as (rec & Hi & Hv & _).
    right. exists rec. simpl. split; [done|]. split; [done|].
    left. by intros cur.
Qed.

(** ** Conflicts *)

(** The three outcomes of a sync whose target holds a record of at least
    the update's version.  In each one conflict is appended to the log;
    it is marked resolved on the two paths that leave [handleConflict]
    normally, and not on the path where applying the incoming update
    throws.  The conflicts logged before are untouched on the paths that
    leave the record in place; where the incoming update is applied, they
    are the earlier ones after the replacement of the record. *)
Lemma syncToWarehouse_conflict env w u current log :
  wh_inventory w !! upd_productId u = Some current →
  upd_version u ≤ version current →
  ∃ c prior,
    snd (syncToWarehouse env w u log) = prior ++ [c]
    ∧ cf_warehouseId c = wh_id w
    ∧ cf_productId c = upd_productId u
    ∧ cf_incomingUpdate c = u
    ∧ ((upd_timestamp u ≤ lastUpdated current
        ∧ prior = log
        ∧ fst (syncToWarehouse env w u log) = w
        ∧ cf_resolved c = true
        ∧ cf_resolution c = Some "kept_current")
       ∨ (lastUpdated current < upd_timestamp u
          ∧ (∃ x, applyUpdate w u
                  = Ok (fst (syncToWarehouse env w u log), x)
                  ∧ prior = recordReplaced w (upd_productId u) x log)
          ∧ cf_resolved c = true
          ∧ cf_resolution c = Some "accepted_incoming")
       ∨ (lastUpdated current < upd_timestamp u
          ∧ (∃ e, applyUpdate w u = Throw e)
          ∧ prior = log
          ∧ fst (syncToWarehouse env w u log) = withLagIncremented w
          ∧ cf_resolved c = false
          ∧ cf_resolution c = None)).
Proof.
  intros Hcur Hver. unfold syncToWarehouse. rewrite Hcur.
  destruct (version current >=? upd_version u) eqn:Hge; [|lia].
  unfold handleConflict.
  destruct (upd_timestamp u >? lastUpdated current) eqn:Hts.
  - destruct (applyUpdate w u) as [[w1 x]|e] eqn:Happ; simpl.
    + eexists _, _. split; [reflexivity|]. simpl. repeat (split; [done|]).
      right. left. split; [lia|]. eauto.
    + eexists _, _. split; [reflexivity|]. simpl. repeat (split; [done|]).
      right. right. split; [lia|]. eauto 10.
  - simpl. eexists _, _. split; [reflexivity|]. simpl.
    repeat (split; [done|]).
    left. split; [lia|]. done.
Qed.

(** C4 — the code at an input where a conflict stays unresolved.  B holds
    5 units at version 2; A, registered afterwards, holds 100 units at
    version 1 (its [set] was stamped in the same millisecond as B's last
    update, so B kept its record).  A then reserves 50: the update has
    version 2, B's record has version 2 and an older timestamp, so the
    conflict is pushed and the incoming reservation is applied at B, where
    it throws.  The conflict is left with [resolved = false] and no
    resolution tag, B's record is unchanged and B's lag is incremented. *)
Theorem C4_conflict_left_unresolved :
  let s0 := runAll [CallRegister "B" "Y";
                    CallUpdate (envAt 1) "B" "sku1" 5 "set";
                    CallUpdate (envAt 2) "B" "sku1" 0 "add";
                    CallRegister "A" "X";
                    CallUpdate (envAt 2) "A" "sku1" 100 "set"] newEngine in
  let out := reserveInventory (envAt 3) "A" "sku1" 50 s0 in
  let update := {| upd_id := "upd"; upd_warehouseId := "A";
                   upd_productId := "sku1"; upd_quantity := 50;
                   upd_operation := "reserve"; upd_timestamp := 3;
                   upd_version := 2 |} in
  let current := {| quantity := 5; reserved := 0; version := 2;
                    lastUpdated := 2 |} in
  wh_inventory <$> JsMap.get "B" (warehouses s0)
    = Some {[ "sku1" := current ]}
  ∧ snd out = Ok update
  ∧ conflicts (fst out)
    = conflicts s0
      ++ [ {| cf_id := "conf"; cf_warehouseId := "B";
              cf_productId := "sku1"; cf_incomingUpdate := update;
              cf_currentState := current; cf_timestamp := 3;
              cf_resolved := false; cf_resolution := None;
              cf_shared := true |} ]
  ∧ wh_inventory <$> JsMap.get "B" (warehouses (fst out))
    = Some {[ "sku1" := current ]}
  ∧ wh_lag <$> JsMap.get "B" (warehouses (fst out)) = Some 1
  ∧ sy_unresolvedConflicts (getSyncStatus (fst out)) = 1%nat.
Proof. vm_compute. done. Qed.

(** ** The two-warehouse scenario *)

(** C5 — as the specification words it, the global total after the
    scenario would be 100.  The update is replayed at B, and the total
    adds up both records. *)
Lemma C5_counterexample :
  let s0 := runAll [CallRegister "A" "X"; CallRegister "B" "Y";
                    CallUpdate (envAt 1) "A" "sku1" 100 "set"] newEngine in
  conflicts s0 = []
  ∧ gi_totalQuantity (getGlobalInventory 2 s0 "sku1") = 200
  ∧ gi_totalQuantity (getGlobalInventory 2 s0 "sku1") ≠ 100.
Proof. vm_compute. done. Qed.

(** C5 (amended) — after registering A and B and setting "sku1" to 100 at
    A, the call has returned, no conflict is logged, A and B each hold a
    record of quantity 100, and [getGlobalInventory] reports a total
    quantity of 200, one entry of 100 per warehouse. *)
Theorem C5_scenario_total (env : Env) (now : Z) (locX locY : string) :
  let out := updateInventory env "A" "sku1" 100 "set"
               (registerWarehouse "B" locY
                  (registerWarehouse "A" locX newEngine)) in
  let g := getGlobalInventory now (fst out) "sku1" in
  isOk (snd out) = true
  ∧ conflicts (fst out) = []
  ∧ gi_totalQuantity g = 200
  ∧ map (fun e => (st_warehouseId e, st_quantity e)) (gi_warehouses g)
    = [("A", 100); ("B", 100)].
Proof. destruct env. vm_compute. done. Qed.

(** ** Registering an identifier twice *)

(** C6 — as the specification words it, registering an identifier that
    exists would leave the existing warehouse as it was.  Here A holds 100
    units of "sku1"; registering "A" again replaces it by an empty
    warehouse at the new location. *)
Lemma C6_counterexample :
  let s0 := runAll [CallRegister "A" "X";
                    CallUpdate (envAt 1) "A" "sku1" 100 "set"] newEngine in
  let s1 := registerWarehouse "A" "Z" s0 in
  wh_inventory <$> JsMap.get "A" (warehouses s0)
    = Some {[ "sku1" := {| quantity := 100; reserved := 0; version := 1;
                           lastUpdated := 1 |} ]}
  ∧ JsMap.get "A" (warehouses s1) = Some (freshWarehouse "A" "Z")
  ∧ JsMap.get "A" (warehouses s1) ≠ JsMap.get "A" (warehouses s0).
Proof. vm_compute. done. Qed.

(** C6 (amended) — [registerWarehouse] signals no error.  Whether or not
    the identifier exists, the registry afterwards maps it to a fresh
    warehouse (the given location, empty inventory, no last sync, status
    active, lag 0); an existing identifier keeps its place in the
    iteration order; every other warehouse, the sync queue and the
    conflict log are untouched. *)
Theorem C6_register_overwrites (warehouseId location : string) (s : Engine) :
  let s' := registerWarehouse warehouseId location s in
  JsMap.get warehouseId (warehouses s')
    = Some (freshWarehouse warehouseId location)
  ∧ (∀ k, k ≠ warehouseId →
          JsMap.get k (warehouses s') = JsMap.get k (warehouses s))
  ∧ (is_Some (JsMap.get warehouseId (warehouses s)) →
     JsMap.keys (warehouses s') = JsMap.keys (warehouses s))
  ∧ syncQueue s' = syncQueue s
  ∧ conflicts s' = conflicts s.
Proof.
  simpl. split; [apply get_set_eq|]. split.
  - intros k Hk. apply get_set_ne. congruence.
  - split; [apply keys_set_present|done].
Qed.

Lemma C6_register_overwrites_witness :
  let s0 := runAll [CallRegister "A" "X"; CallRegister "B" "Y";
                    CallUpdate (envAt 1) "A" "sku1" 100 "set"] newEngine in
  let s1 := registerWarehouse "A" "Z" s0 in
  JsMap.get "A" (warehouses s1) = Some (freshWarehouse "A" "Z")
  ∧ JsMap.get "B" (warehouses s1) = JsMap.get "B" (warehouses s0)
  ∧ JsMap.keys (warehouses s1) = ["A"; "B"].
Proof.
  intros s0 s1.
  destruct (C6_register_overwrites "A" "Z" s0) as (Hfresh & Hother & Hkeys & _).
  split; [exact Hfresh|]. split.
  - apply Hother. discriminate.
  - subst s1. rewrite Hkeys; [reflexivity|]. vm_compute. eauto.
Defined.

(** ** Reading the global inventory twice *)

(** C8 — as the specification words it, two reads with no mutation in
    between would agree on every field.  The result carries the clock
    reading of the call, so two reads one millisecond apart differ. *)
Lemma C8_counterexample :
  let s0 := runAll [CallRegister "A" "X";
                    CallUpdate (envAt 1) "A" "sku1" 100 "set"] newEngine in
  getGlobalInventory 2 s0 "sku1" ≠ getGlobalInventory 3 s0 "sku1".
Proof. vm_compute. discriminate. Qed.

(** C8 (amended) — two calls of [getGlobalInventory] on the same engine
    state and product agree on the product, the three totals and the
    per-warehouse breakdown; the [lastUpdated] field of each result is the
    clock reading of its own call. *)
Theorem C8_reads_agree_up_to_clock (now1 now2 : Z) (s : Engine)
    (productId : string) :
  let g1 := getGlobalInventory now1 s productId in
  let g2 := getGlobalInventory now2 s productId in
  gi_productId g1 = gi_productId g2
  ∧ gi_totalQuantity g1 = gi_totalQuantity g2
  ∧ gi_totalReserved g1 = gi_totalReserved g2
  ∧ gi_totalAvailable g1 = gi_totalAvailable g2
  ∧ gi_warehouses g1 = gi_warehouses g2
  ∧ gi_lastUpdated g1 = now1
  ∧ gi_lastUpdated g2 = now2.
Proof.
  unfold getGlobalInventory.
  by destruct (globalLoop productId (warehouses s) (0, 0, []))
    as [[totalQuantity totalReserved] out].
Qed.

(** ** Fulfillment selection *)

Lemma head_insertByDistance c l :
  head (insertByDistance c l)
  = match head l with
    | None => Some c
    | Some m => if cd_distance c <=? cd_distance m then Some c else Some m
    end.
Proof. destruct l as [|m l]; [done|]. simpl. by destruct (_ <=? _). Qed.

Lemma head_sortByDistance_None cs :
  head (sortByDistance cs) = None ↔ cs = [].
Proof.
  split; [|by intros ->].
  destruct cs as [|c cs]; [done|]. simpl.
  rewrite head_insertByDistance.
  destruct (head (sortByDistance cs)) as [m|]; [|done].
  by destruct (_ <=? _).
Qed.

(** The head of the sorted array is the first candidate, in the order of
    the loop, among those of least distance. *)
Lemma head_sortByDistance_first_least cs c :
  head (sortByDistance cs) = Some c →
  ∃ before after,
    cs = before ++ c :: after
    ∧ (∀ c', c' ∈ before → cd_distance c < cd_distance c')
    ∧ (∀ c', c' ∈ after → cd_distance c ≤ cd_distance c').
Proof.
  revert c. induction cs as [|c0 cs IH]; intros c; [done|].
  simpl. rewrite head_insertByDistance.
  destruct (head (sortByDistance cs)) as [m|] eqn:Hm.
  - destruct (IH m eq_refl) as (b & a & -> & Hb & Ha).
    destruct (cd_distance c0 <=? cd_distance m) eqn:Hle; intros [= <-].
    + exists [], (b ++ m :: a). split; [done|]. split.
      * intros c' Hc'. by apply elem_of_nil in Hc'.
      * intros c' [Hc'|[->|Hc']%elem_of_cons]%elem_of_app.
        -- specialize (Hb c' Hc'). lia.
        -- lia.
        -- specialize (Ha c' Hc'). lia.
    + exists (c0 :: b), a. split; [done|]. split; [|done].
      intros c' [->|Hc']%elem_of_cons; [lia|by apply Hb].
  - apply head_sortByDistance_None in Hm. subst cs. intros [= <-].
    exists [], []. split; [done|].
    split; intros c' Hc'; by apply elem_of_nil in Hc'.
Qed.

Lemma candidatesLoop_ids draw productId qty dest ws k :
  map cd_warehouseId (candidatesLoop draw productId qty dest ws k)
  = map fst (filter (fun kw => qualifies productId qty (snd kw) = true) ws).
Proof.
  revert k. induction ws as [|[wid w] ws IH]; intros k; [done|].
  rewrite filter_cons. cbn [candidatesLoop snd].
  destruct (decide (qualifies productId qty w = true)) as [Hq|Hq];
    unfold qualifies in Hq;
    destruct (wh_inventory w !! productId) as [inventory|]; try done.
  - rewrite Hq. simpl. by rewrite IH.
  - destruct (quantity inventory - reserved inventory >=? qty); [done|].
    apply IH.
Qed.

Lemma candidatesLoop_sound draw productId qty dest ws k c :
  c ∈ candidatesLoop draw productId qty dest ws k →
  ∃ w inventory,
    (cd_warehouseId c, w) ∈ ws
    ∧ wh_inventory w !! productId = Some inventory
    ∧ cd_location c = wh_location w
    ∧ cd_available c = quantity inventory - reserved inventory
    ∧ qty ≤ cd_available c.
Proof.
  revert k. induction ws as [|[wid w] ws IH]; intros k.
  - by intros ?%elem_of_nil.
  - simpl.
    assert (Hrest : ∀ k', c ∈ candidatesLoop draw productId qty dest ws k' →
              ∃ w0 inventory, (cd_warehouseId c, w0) ∈ (wid, w) :: ws
                ∧ wh_inventory w0 !! productId = Some inventory
                ∧ cd_location c = wh_location w0
                ∧ cd_available c = quantity inventory - reserved inventory
                ∧ qty ≤ cd_available c).
    { intros k' Hin. destruct (IH k' Hin) as (w0 & inv0 & Hw0 & H).
      exists w0, inv0. split; [by apply list_elem_of_further|done]. }
    destruct (wh_inventory w !! productId) as [inventory|] eqn:Hinv;
      [|by apply Hrest].
    destruct (quantity inventory - reserved inventory >=? qty) eqn:Hge;
      [|by apply Hrest].
    intros [->|Hin]%elem_of_cons; [|by eapply Hrest].
    exists w, inventory. simpl. split; [apply list_elem_of_here|].
    split; [done|]. split; [done|]. split; [done|]. lia.
Qed.

(** C7 — as the specification words it, candidates at equal distance
    would be ordered by greater available stock and then by smaller
    identifier.  With all distances equal, the code returns A with 1 unit
    available although B has 10; and, with equal stock, it returns B,
    registered first, although "A" is the smaller identifier. *)
Lemma C7_counterexample :
  let s0 := runAll [CallRegister "A" "X";
                    CallUpdate (envAt 1) "A" "sku1" 10 "set";
                    CallReserve (envAt 2) "A" "sku1" 9;
                    CallRegister "B" "Y";
                    CallUpdate (envAt 3) "B" "sku1" 10 "set"] newEngine in
  let s1 := runAll [CallRegister "B" "Y"; CallRegister "A" "X";
                    CallUpdate (envAt 1) "B" "sku1" 10 "set"] newEngine in
  let draw := fun _ : nat => 0 in
  map (fun c => (cd_warehouseId c, cd_available c, cd_distance c))
      (candidatesLoop draw "sku1" 1 "dest" (warehouses s0) 0)
    = [("A", 1, 50); ("B", 10, 50)]
  ∧ cd_warehouseId <$> findOptimalWarehouse draw s0 "sku1" 1 "dest"
    = Some "A"
  ∧ map (fun c => (cd_warehouseId c, cd_available c, cd_distance c))
        (candidatesLoop draw "sku1" 1 "dest" (warehouses s1) 0)
    = [("B", 10, 50); ("A", 10, 50)]
  ∧ cd_warehouseId <$> findOptimalWarehouse draw s1 "sku1" 1 "dest"
    = Some "B".
Proof. vm_compute. done. Qed.

(** C7 (amended) — [findOptimalWarehouse] builds one candidate for each
    warehouse whose record of the product has
    [quantity − reserved ≥ requested], in registration order, and no
    other; it returns [null] exactly when there is none; otherwise it
    returns a candidate of least distance, and among candidates of that
    distance the one registered first. *)
Theorem C7_closest_then_first_registered (draw : nat -> Z) (s : Engine)
    (productId : string) (qty : Z) (dest : string) :
  let cs := candidatesLoop draw productId qty dest (warehouses s) 0 in
  let best := findOptimalWarehouse draw s productId qty dest in
  map cd_warehouseId cs
    = map fst (filter (fun kw => qualifies productId qty (snd kw) = true)
                 (warehouses s))
  ∧ (∀ c, c ∈ cs →
       ∃ w inventory,
         (cd_warehouseId c, w) ∈ warehouses s
         ∧ wh_inventory w !! productId = Some inventory
         ∧ cd_location c = wh_location w
         ∧ cd_available c = quantity inventory - reserved inventory
         ∧ qty ≤ cd_available c)
  ∧ (best = None ↔ cs = [])
  ∧ (∀ c, best = Some c →
       ∃ before after,
         cs = before ++ c :: after
         ∧ (∀ c', c' ∈ before → cd_distance c < cd_distance c')
         ∧ (∀ c', c' ∈ after → cd_distance c ≤ cd_distance c')).
Proof.
  intros cs best. split; [apply candidatesLoop_ids|].
  split; [intros c; apply candidatesLoop_sound|].
  split; [apply head_sortByDistance_None|].
  intros c. apply head_sortByDistance_first_least.
Qed.

Lemma C7_closest_then_first_registered_witness :
  let s0 := runAll [CallRegister "A" "X"; CallRegister "B" "Y";
                    CallRegister "C" "Z";
                    CallUpdate (envAt 1) "A" "sku1" 10 "set"] newEngine in
  let draw := fun k : nat =>
    match k with O => 400 | S O => 7 | _ => 7 end in
  ∃ c, findOptimalWarehouse draw s0 "sku1" 3 "dest" = Some c
       ∧ cd_warehouseId c = "B"
       ∧ ∃ before after,
           candidatesLoop draw "sku1" 3 "dest" (warehouses s0) 0
             = before ++ c :: after
           ∧ (∀ c', c' ∈ before → cd_distance c < cd_distance c')
           ∧ (∀ c', c' ∈ after → cd_distance c ≤ cd_distance c').
Proof.
  intros s0 draw.
  destruct (C7_closest_then_first_registered draw s0 "sku1" 3 "dest")
    as (_ & _ & _ & Hbest).
  eexists. split; [vm_compute; reflexivity|]. split; [reflexivity|].
  apply Hbest. vm_compute. reflexivity.
Defined.

(** ** The origin warehouse after an update *)

Lemma updateInventory_Ok env wid pid v op s w q' r' :
  JsMap.get wid (warehouses s) = Some w →
  applyOperation op (curQuantityOf (wh_inventory w !! pid))
    (curReservedOf (wh_inventory w !! pid)) v = Ok (q', r') →
  ∃ w',
    snd (updateInventory env wid pid v op s)
      = Ok (makeUpdate env s wid pid v op)
    ∧ JsMap.get wid (warehouses (fst (updateInventory env wid pid v op s)))
      = Some w'
    ∧ wh_inventory w'
      = <[pid := {| quantity := q'; reserved := r';
                    version := getVersion s wid pid + 1;
                    lastUpdated := env_now env |}]> (wh_inventory w).
Proof.
  intros Hget Hop. unfold updateInventory. rewrite Hget.
  unfold applyUpdate. simpl. rewrite Hop. simpl.
  eexists. split; [done|].
  rewrite get_propagateUpdate. simpl. rewrite get_set_eq. simpl.
  unfold propagated. simpl. rewrite String.eqb_refl. simpl.
  split; reflexivity.
Qed.

(** [commitReservation] on a registered warehouse returns, and the
    origin's records still have the reserved count within the quantity:
    the release and the subtraction lower both counters by the same value,
    each clamped at zero. *)
Lemma commitReservation_origin_bound env1 env2 wid pid v s w :
  0 ≤ v →
  JsMap.get wid (warehouses s) = Some w →
  warehouseSatisfies reservedWithinQuantity w = true →
  let out := commitReservation env1 env2 wid pid v s in
  snd out = Ok tt
  ∧ ∃ w', JsMap.get wid (warehouses (fst out)) = Some w'
          ∧ warehouseSatisfies reservedWithinQuantity w' = true.
Proof.
  intros Hv Hget Hw out. subst out.
  unfold commitReservation, releaseInventory.
  destruct (updateInventory_Ok env1 wid pid v "release" s w _ _ Hget
              (applyOperation_release _ _ _)) as (w1 & Hok1 & Hget1 & Hinv1).
  destruct (updateInventory env1 wid pid v "release" s) as [s1 res1].
  simpl in Hok1, Hget1. subst res1.
  destruct (updateInventory_Ok env2 wid pid v "subtract" s1 w1 _ _ Hget1
              (applyOperation_subtract _ _ _)) as (w2 & Hok2 & Hget2 & Hinv2).
  destruct (updateInventory env2 wid pid v "subtract" s1) as [s2 res2].
  simpl in Hok2, Hget2. subst res2. simpl. split; [done|].
  exists w2. split; [done|]. apply warehouseSatisfies_spec.
  intros p rec. rewrite Hinv2, lookup_insert. case_decide as Hp.
  - intros [= <-]. simpl. rewrite Hinv1, lookup_insert_eq. simpl.
    assert (Hcur : reservedWithinQuantity
                     (curQuantityOf (wh_inventory w !! pid))
                     (curReservedOf (wh_inventory w !! pid)) = true).
    { destruct (wh_inventory w !! pid) as [cur|] eqn:Hcur; simpl; [|done].
      by eapply warehouseSatisfies_spec. }
    unfold reservedWithinQuantity in *.
    apply andb_true_iff in Hcur as [Hr%Z.leb_le Hq%Z.leb_le].
    apply andb_true_iff; split; apply Z.leb_le; lia.
  - rewrite Hinv1, lookup_insert_ne by done.
    by apply warehouseSatisfies_spec.
Qed.

(** ** The stock invariant *)

(** C1 — as the specification words it, every operation would keep
    [0 ≤ reserved ≤ quantity] on every record.  It does not: after
    registering a warehouse, setting 10 units and reserving 5 of them, a
    [subtract] of 8 leaves quantity 2 under reserved 5. *)
Lemma C1_counterexample :
  let s0 := runAll [CallRegister "A" "X";
                    CallUpdate (envAt 1) "A" "sku1" 10 "set";
                    CallReserve (envAt 2) "A" "sku1" 5] newEngine in
  let c := CallUpdate (envAt 3) "A" "sku1" 8 "subtract" in
  engineSatisfies reservedWithinQuantity s0 = true
  ∧ valuesNonNegative c = true
  ∧ engineSatisfies reservedWithinQuantity (run c s0) = false
  ∧ wh_inventory <$> JsMap.get "A" (warehouses (run c s0))
    = Some {[ "sku1" := {| quantity := 2; reserved := 5; version := 3;
                           lastUpdated := 3 |} ]}.
Proof. vm_compute. done. Qed.

(** C1 (amended) — when the values passed are non-negative, every call of
    the interface (registration, [updateInventory] with any operation
    string, [reserveInventory], [releaseInventory], [commitReservation],
    [syncFromExternalSystem], each with its propagation and conflict
    resolution) keeps [0 ≤ quantity] and [0 ≤ reserved] on every record of
    every warehouse; registrations, [add], [release] and unrecognised
    operations moreover keep [0 ≤ reserved ≤ quantity] on every record of
    every warehouse, and [commitReservation] keeps it on the records of
    the warehouse it is called for. *)
Theorem C1_counters_preserved (c : Call) (s : Engine) :
  valuesNonNegative c = true →
  (engineSatisfies nonNegative s = true →
   engineSatisfies nonNegative (run c s) = true)
  ∧ (keepsReservedBound c = true →
     engineSatisfies reservedWithinQuantity s = true →
     engineSatisfies reservedWithinQuantity (run c s) = true)
  ∧ (∀ env1 env2 wid pid v w,
       c = CallCommit env1 env2 wid pid v →
       JsMap.get wid (warehouses s) = Some w →
       warehouseSatisfies reservedWithinQuantity w = true →
       ∃ w', JsMap.get wid (warehouses (run c s)) = Some w'
             ∧ warehouseSatisfies reservedWithinQuantity w' = true).
Proof.
  intros Hc. split; [by apply run_preserves_nonNegative|].
  split; [by apply run_preserves_reservedWithinQuantity|].
  intros env1 env2 wid pid v w -> Hget Hw. simpl in Hc.
  apply Z.leb_le in Hc.
  by destruct (commitReservation_origin_bound env1 env2 wid pid v s w
                 Hc Hget Hw) as [_ H].
Qed.

Lemma C1_counters_preserved_witness :
  let s0 := runAll [CallRegister "A" "X"; CallRegister "B" "Y";
                    CallUpdate (envAt 1) "A" "sku1" 10 "set";
                    CallReserve (envAt 2) "A" "sku1" 5] newEngine in
  let c := CallUpdate (envAt 3) "B" "sku1" 4 "add" in
  valuesNonNegative c = true
  ∧ keepsReservedBound c = true
  ∧ engineSatisfies nonNegative s0 = true
  ∧ engineSatisfies reservedWithinQuantity s0 = true
  ∧ engineSatisfies nonNegative (run c s0) = true
  ∧ engineSatisfies reservedWithinQuantity (run c s0) = true.
Proof.
  intros s0 c.
  assert (Hc : valuesNonNegative c = true) by reflexivity.
  assert (Hk : keepsReservedBound c = true) by reflexivity.
  assert (Hn : engineSatisfies nonNegative s0 = true)
    by (vm_compute; reflexivity).
  assert (Hr : engineSatisfies reservedWithinQuantity s0 = true)
    by (vm_compute; reflexivity).
  destruct (C1_counters_preserved c s0 Hc) as (H1 & H2 & _).
  repeat split; auto.
Defined.

(** * Further properties of the engine *)

(** ** Calls for a warehouse that is not registered *)

(** Every mutating call for an unregistered warehouse throws the
    not-found error before it touches anything: the engine, sync queue
    included, is the one it was; [getVersion] answers 0 there. *)
Theorem unregistered_calls_throw env env' wid pid v op items (s : Engine) :
  JsMap.get wid (warehouses s) = None →
  updateInventory env wid pid v op s = (s, Throw (WarehouseNotFound wid))
  ∧ reserveInventory env wid pid v s = (s, Throw (WarehouseNotFound wid))
  ∧ releaseInventory env wid pid v s = (s, Throw (WarehouseNotFound wid))
  ∧ commitReservation env env' wid pid v s
    = (s, Throw (WarehouseNotFound wid))
  ∧ syncFromExternalSystem wid items s = (s, Throw (WarehouseNotFound wid))
  ∧ getVersion s wid pid = 0.
Proof.
  intros Hget.
  assert (Hu : ∀ o, updateInventory env wid pid v o s
                    = (s, Throw (WarehouseNotFound wid))).
  { intros o. unfold updateInventory. by rewrite Hget. }
  split; [apply Hu|]. split; [apply Hu|]. split; [apply Hu|].
  split; [unfold commitReservation, releaseInventory; by rewrite Hu|].
  split; [unfold syncFromExternalSystem; by rewrite Hget|].
  unfold getVersion. by rewrite Hget.
Qed.

Lemma unregistered_calls_throw_witness :
  let s0 := runAll [CallRegister "A" "X";
                    CallUpdate (envAt 1) "A" "sku1" 10 "set"] newEngine in
  updateInventory (envAt 2) "B" "sku1" 3 "add" s0
    = (s0, Throw (WarehouseNotFound "B"))
  ∧ commitReservation (envAt 2) (envAt 3) "B" "sku1" 3 s0
    = (s0, Throw (WarehouseNotFound "B"))
  ∧ syncFromExternalSystem "B" [(envAt 2, ("sku1", 3))] s0
    = (s0, Throw (WarehouseNotFound "B")).
Proof.
  intros s0.
  assert (Hget : JsMap.get "B" (warehouses s0) = None)
    by (vm_compute; reflexivity).
  destruct (unregistered_calls_throw (envAt 2) (envAt 3) "B" "sku1" 3 "add"
              [(envAt 2, ("sku1", 3))] s0 Hget) as (H1 & _ & _ & H4 & H5 & _).
  by repeat split.
Defined.

(** ** When [updateInventory] throws on a registered warehouse *)

(** On a registered warehouse the only failure is a reservation larger
    than the on-hand quantity of the origin's record (0 when there is no
    record), and the error carries the requested value. *)
Theorem updateInventory_throws_iff env wid pid v op (s : Engine)
    (w : Warehouse) (e : EngineError) :
  JsMap.get wid (warehouses s) = Some w →
  snd (updateInventory env wid pid v op s) = Throw e
  ↔ op = "reserve"
    ∧ curQuantityOf (wh_inventory w !! pid) < v
    ∧ e = InsufficientInventory v.
Proof.
  intros Hget. unfold updateInventory. rewrite Hget. unfold applyUpdate.
  simpl. split.
  - destruct (applyOperation op _ _ v) as [[q' r']|e'] eqn:Happ; [done|].
    simpl. intros [= ->]. by apply applyOperation_throws in Happ.
  - intros (-> & Hlt & ->). rewrite applyOperation_reserve.
    destruct (curQuantityOf (wh_inventory w !! pid) >=? v) eqn:Hge; [lia|].
    done.
Qed.

Lemma updateInventory_throws_iff_witness :
  let s0 := runAll [CallRegister "A" "X";
                    CallUpdate (envAt 1) "A" "sku1" 10 "set"] newEngine in
  snd (updateInventory (envAt 2) "A" "sku1" 11 "reserve" s0)
    = Throw (InsufficientInventory 11)
  ∧ snd (updateInventory (envAt 2) "A" "sku1" 11 "subtract" s0)
    ≠ Throw (InsufficientInventory 11).
Proof.
  intros s0.
  assert (Hget : JsMap.get "A" (warehouses s0)
                 = Some {| wh_id := "A"; wh_location := "X";
                           wh_inventory :=
                             {[ "sku1" := {| quantity := 10; reserved := 0;
                                             version := 1;
                                             lastUpdated := 1 |} ]};
                           wh_lastSync := None; wh_status := "active";
                           wh_lag := 0 |})
    by (vm_compute; reflexivity).
  split.
  - apply (updateInventory_throws_iff (envAt 2) "A" "sku1" 11 "reserve" s0
             _ _ Hget).
    split; [reflexivity|]. split; [vm_compute; reflexivity|reflexivity].
  - intros H.
    apply (updateInventory_throws_iff (envAt 2) "A" "sku1" 11 "subtract" s0
             _ _ Hget) in H.
    destruct H as [H _]. discriminate H.
Defined.

(** ** The origin after a call that returns *)

(** When [updateInventory] returns, the update it returns has the prior
    version plus one and the call's timestamp; the origin's record of the
    product is the result of the switch with that version and timestamp;
    the origin's other products and its location, status, lag and last
    sync are the ones it had: propagation never writes to the origin. *)
Theorem updateInventory_origin_after env wid pid v op (s : Engine)
    (w : Warehouse) (u : InventoryUpdate) :
  JsMap.get wid (warehouses s) = Some w →
  snd (updateInventory env wid pid v op s) = Ok u →
  u = makeUpdate env s wid pid v op
  ∧ upd_version u = curVersionOf (wh_inventory w !! pid) + 1
  ∧ ∃ w' rec,
      JsMap.get wid (warehouses (fst (updateInventory env wid pid v op s)))
        = Some w'
      ∧ wh_inventory w' !! pid = Some rec
      ∧ applyOperation op (curQuantityOf (wh_inventory w !! pid))
          (curReservedOf (wh_inventory w !! pid)) v
        = Ok (quantity rec, reserved rec)
      ∧ version rec = curVersionOf (wh_inventory w !! pid) + 1
      ∧ lastUpdated rec = env_now env
      ∧ (∀ p, p ≠ pid → wh_inventory w' !! p = wh_inventory w !! p)
      ∧ wh_id w' = wh_id w ∧ wh_location w' = wh_location w
      ∧ wh_status w' = wh_status w ∧ wh_lag w' = wh_lag w
      ∧ wh_lastSync w' = wh_lastSync w.
Proof.
  intros Hget. unfold updateInventory. rewrite Hget. unfold applyUpdate.
  simpl.
  assert (Hver : getVersion s wid pid = curVersionOf (wh_inventory w !! pid)).
  { unfold getVersion. by rewrite Hget. }
  destruct (applyOperation op _ _ v) as [[q' r']|e'] eqn:Happ; [|done].
  simpl. intros [= <-]. split; [done|]. simpl. split; [by rewrite Hver|].
  rewrite get_propagateUpdate. simpl. rewrite get_set_eq. simpl.
  unfold propagated. simpl. rewrite String.eqb_refl. simpl.
  eexists _, _. split; [reflexivity|]. simpl.
  split; [apply lookup_insert_eq|]. simpl.
  split; [done|]. split; [by rewrite Hver|]. split; [done|].
  split; [|done]. intros p Hp. by rewrite lookup_insert_ne.
Qed.

Lemma updateInventory_origin_after_witness :
  let s0 := runAll [CallRegister "A" "X"; CallRegister "B" "Y";
                    CallUpdate (envAt 1) "A" "sku1" 10 "set"] newEngine in
  ∃ u, snd (updateInventory (envAt 2) "A" "sku1" 4 "add" s0) = Ok u
       ∧ upd_version u = 1 + 1.
Proof.
  intros s0.
  assert (Hget : JsMap.get "A" (warehouses s0)
                 = Some {| wh_id := "A"; wh_location := "X";
                           wh_inventory :=
                             {[ "sku1" := {| quantity := 10; reserved := 0;
                                             version := 1;
                                             lastUpdated := 1 |} ]};
                           wh_lastSync := None; wh_status := "active";
                           wh_lag := 0 |})
    by (vm_compute; reflexivity).
  eexists. split; [vm_compute; reflexivity|].
  apply (updateInventory_origin_after (envAt 2) "A" "sku1" 4 "add" s0 _ _ Hget).
  vm_compute. reflexivity.
Defined.

(** ** Reserving, releasing and committing at one warehouse *)

(** Reserving a value the on-hand quantity covers and then releasing the
    same value returns twice, leaves the quantity as it was, brings the
    reserved count back to what it was, and has raised the version by
    two.  The reserved count must not be negative beforehand: the release
    clamps at zero. *)
Theorem reserve_release_round_trip env1 env2 wid pid v (s : Engine)
    (w : Warehouse) :
  JsMap.get wid (warehouses s) = Some w →
  0 ≤ v ≤ curQuantityOf (wh_inventory w !! pid) →
  0 ≤ curReservedOf (wh_inventory w !! pid) →
  let out1 := reserveInventory env1 wid pid v s in
  let out2 := releaseInventory env2 wid pid v (fst out1) in
  isOk (snd out1) = true
  ∧ isOk (snd out2) = true
  ∧ ∃ w2, JsMap.get wid (warehouses (fst out2)) = Some w2
          ∧ wh_inventory w2 !! pid
            = Some {| quantity := curQuantityOf (wh_inventory w !! pid);
                      reserved := curReservedOf (wh_inventory w !! pid);
                      version := curVersionOf (wh_inventory w !! pid) + 2;
                      lastUpdated := env_now env2 |}.
Proof.
  intros Hget [Hv Hq] Hr out1 out2. subst out2 out1.
  unfold reserveInventory, releaseInventory.
  assert (Hres : applyOperation "reserve"
                   (curQuantityOf (wh_inventory w !! pid))
                   (curReservedOf (wh_inventory w !! pid)) v
                 = Ok (curQuantityOf (wh_inventory w !! pid),
                       curReservedOf (wh_inventory w !! pid) + v)).
  { rewrite applyOperation_reserve.
    destruct (curQuantityOf (wh_inventory w !! pid) >=? v) eqn:Hge;
      [done|lia]. }
  destruct (updateInventory_Ok env1 wid pid v "reserve" s w _ _ Hget Hres)
    as (w1 & Hok1 & Hget1 & Hinv1).
  assert (Hver1 : getVersion (fst (updateInventory env1 wid pid v "reserve" s))
                    wid pid = curVersionOf (wh_inventory w !! pid) + 1).
  { unfold getVersion at 1. rewrite Hget1, Hinv1, lookup_insert_eq. simpl.
    unfold getVersion. by rewrite Hget. }
  destruct (updateInventory env1 wid pid v "reserve" s) as [s1 res1].
  simpl in *. subst res1. split; [done|].
  destruct (updateInventory_Ok env2 wid pid v "release" s1 w1 _ _ Hget1
              (applyOperation_release _ _ _)) as (w2 & Hok2 & Hget2 & Hinv2).
  destruct (updateInventory env2 wid pid v "release" s1) as [s2 res2].
  simpl in *. subst res2. split; [done|].
  exists w2. split; [done|].
  rewrite Hinv2, lookup_insert_eq, Hinv1, lookup_insert_eq, Hver1. simpl.
  f_equal. f_equal; lia.
Qed.

Lemma reserve_release_round_trip_witness :
  let s0 := runAll [CallRegister "A" "X"; CallRegister "B" "Y";
                    CallUpdate (envAt 1) "A" "sku1" 10 "set";
                    CallReserve (envAt 2) "A" "sku1" 4] newEngine in
  let out1 := reserveInventory (envAt 3) "A" "sku1" 5 s0 in
  let out2 := releaseInventory (envAt 4) "A" "sku1" 5 (fst out1) in
  ∃ w2, JsMap.get "A" (warehouses (fst out2)) = Some w2
        ∧ wh_inventory w2 !! "sku1"
          = Some {| quantity := 10; reserved := 4; version := 4;
                    lastUpdated := 4 |}.
Proof.
  intros s0 out1 out2.
  assert (Hget : JsMap.get "A" (warehouses s0)
                 = Some {| wh_id := "A"; wh_location := "X";
                           wh_inventory :=
                             {[ "sku1" := {| quantity := 10; reserved := 4;
                                             version := 2;
                                             lastUpdated := 2 |} ]};
                           wh_lastSync := None; wh_status := "active";
                           wh_lag := 0 |})
    by (vm_compute; reflexivity).
  destruct (reserve_release_round_trip (envAt 3) (envAt 4) "A" "sku1" 5 s0 _
              Hget) as (_ & _ & w2 & Hw2 & Hrec).
  - vm_compute. split; discriminate.
  - vm_compute. discriminate.
  - exists w2. split; [exact Hw2|]. rewrite Hrec. vm_compute. reflexivity.
Defined.

(** Reserving a value the on-hand quantity covers and then committing the
    same value returns, takes the value off the quantity and brings the
    reserved count back to what it was before the reservation; the version
    has grown by three (reserve, release, subtract). *)
Theorem reserve_commit_conversion env1 env2 env3 wid pid v (s : Engine)
    (w : Warehouse) :
  JsMap.get wid (warehouses s) = Some w →
  0 ≤ v ≤ curQuantityOf (wh_inventory w !! pid) →
  0 ≤ curReservedOf (wh_inventory w !! pid) →
  let out1 := reserveInventory env1 wid pid v s in
  let out2 := commitReservation env2 env3 wid pid v (fst out1) in
  isOk (snd out1) = true
  ∧ snd out2 = Ok tt
  ∧ ∃ w3, JsMap.get wid (warehouses (fst out2)) = Some w3
          ∧ wh_inventory w3 !! pid
            = Some {| quantity := curQuantityOf (wh_inventory w !! pid) - v;
                      reserved := curReservedOf (wh_inventory w !! pid);
                      version := curVersionOf (wh_inventory w !! pid) + 3;
                      lastUpdated := env_now env3 |}.
Proof.
  intros Hget [Hv Hq] Hr out1 out2. subst out2 out1.
  unfold reserveInventory, commitReservation, releaseInventory.
  assert (Hres : applyOperation "reserve"
                   (curQuantityOf (wh_inventory w !! pid))
                   (curReservedOf (wh_inventory w !! pid)) v
                 = Ok (curQuantityOf (wh_inventory w !! pid),
                       curReservedOf (wh_inventory w !! pid) + v)).
  { rewrite applyOperation_reserve.
    destruct (curQuantityOf (wh_inventory w !! pid) >=? v) eqn:Hge;
      [done|lia]. }
  destruct (updateInventory_Ok env1 wid pid v "reserve" s w _ _ Hget Hres)
    as (w1 & Hok1 & Hget1 & Hinv1).
  assert (Hver1 : getVersion (fst (updateInventory env1 wid pid v "reserve" s))
                    wid pid = curVersionOf (wh_inventory w !! pid) + 1).
  { unfold getVersion at 1. rewrite Hget1, Hinv1, lookup_insert_eq. simpl.
    unfold getVersion. by rewrite Hget. }
  destruct (updateInventory env1 wid pid v "reserve" s) as [s1 res1].
  simpl in *. subst res1. split; [done|].
  destruct (updateInventory_Ok env2 wid pid v "release" s1 w1 _ _ Hget1
              (applyOperation_release _ _ _)) as (w2 & Hok2 & Hget2 & Hinv2).
  assert (Hver2 : getVersion (fst (updateInventory env2 wid pid v "release" s1))
                    wid pid = curVersionOf (wh_inventory w !! pid) + 2).
  { unfold getVersion at 1. rewrite Hget2, Hinv2, lookup_insert_eq. simpl.
    rewrite Hver1. lia. }
  destruct (updateInventory env2 wid pid v "release" s1) as [s2 res2].
  simpl in *. subst res2.
  destruct (updateInventory_Ok env3 wid pid v "subtract" s2 w2 _ _ Hget2
              (applyOperation_subtract _ _ _)) as (w3 & Hok3 & Hget3 & Hinv3).
  destruct (updateInventory env3 wid pid v "subtract" s2) as [s3 res3].
  simpl in *. subst res3. split; [done|].
  exists w3. split; [done|].
  rewrite Hinv3, lookup_insert_eq, Hinv2, lookup_insert_eq, Hinv1,
    lookup_insert_eq, Hver2. simpl.
  f_equal. f_equal; lia.
Qed.

Lemma reserve_commit_conversion_witness :
  let s0 := runAll [CallRegister "A" "X"; CallRegister "B" "Y";
                    CallUpdate (envAt 1) "A" "sku1" 10 "set";
                    CallReserve (envAt 2) "A" "sku1" 4] newEngine in
  let out1 := reserveInventory (envAt 3) "A" "sku1" 3 s0 in
  let out2 := commitReservation (envAt 4) (envAt 5) "A" "sku1" 3 (fst out1) in
  ∃ w3, JsMap.get "A" (warehouses (fst out2)) = Some w3
        ∧ wh_inventory w3 !! "sku1"
          = Some {| quantity := 7; reserved := 4; version := 5;
                    lastUpdated := 5 |}.
Proof.
  intros s0 out1 out2.
  assert (Hget : JsMap.get "A" (warehouses s0)
                 = Some {| wh_id := "A"; wh_location := "X";
                           wh_inventory :=
                             {[ "sku1" := {| quantity := 10; reserved := 4;
                                             version := 2;
                                             lastUpdated := 2 |} ]};
                           wh_lastSync := None; wh_status := "active";
                           wh_lag := 0 |})
    by (vm_compute; reflexivity).
  destruct (reserve_commit_conversion (envAt 3) (envAt 4) (envAt 5) "A" "sku1"
              3 s0 _ Hget) as (_ & _ & w3 & Hw3 & Hrec).
  - vm_compute. split; discriminate.
  - vm_compute. discriminate.
  - exists w3. split; [exact Hw3|]. rewrite Hrec. vm_compute. reflexivity.
Defined.

(** ** What a call does to each entry of the registry *)

Lemma applyUpdate_Ok_meta w u w' x :
  applyUpdate w u = Ok (w', x) →
  wh_id w' = wh_id w ∧ wh_location w' = wh_location w
  ∧ wh_status w' = wh_status w ∧ wh_lag w' = wh_lag w
  ∧ wh_lastSync w' = wh_lastSync w.
Proof.
  unfold applyUpdate.
  destruct (applyOperation _ _ _ _) as [[q' r']|e]; [|done].
  by intros [= <- <-].
Qed.

Lemma applyUpdate_Throw_reserve w u e :
  applyUpdate w u = Throw e → upd_operation u = "reserve".
Proof.
  unfold applyUpdate.
  destruct (applyOperation _ _ _ _) as [[q' r']|e'] eqn:Happ; [done|].
  intros _. by apply applyOperation_throws in Happ as [? _].
Qed.

(** A synced target keeps its identifier, location and status.  Its lag
    is the one it had, or one more; the latter only for a reservation, and
    then with the inventory untouched. *)
Lemma syncedWarehouse_meta env w u :
  wh_id (syncedWarehouse env w u) = wh_id w
  ∧ wh_location (syncedWarehouse env w u) = wh_location w
  ∧ wh_status (syncedWarehouse env w u) = wh_status w
  ∧ (wh_lag (syncedWarehouse env w u) = wh_lag w
     ∨ (wh_lag (syncedWarehouse env w u) = wh_lag w + 1
        ∧ upd_operation u = "reserve"
        ∧ wh_inventory (syncedWarehouse env w u) = wh_inventory w)).
Proof.
  unfold syncedWarehouse, syncToWarehouse.
  assert (Hplain :
    let r := fst (match applyUpdate w u with
                  | Ok (w1, _) =>
                      (withLastSync (env_syncTime env (wh_id w)) w1,
                       @nil Conflict)
                  | Throw _ => (withLagIncremented w, [])
                  end) in
    wh_id r = wh_id w ∧ wh_location r = wh_location w
    ∧ wh_status r = wh_status w
    ∧ (wh_lag r = wh_lag w
       ∨ (wh_lag r = wh_lag w + 1 ∧ upd_operation u = "reserve"
          ∧ wh_inventory r = wh_inventory w))).
  { destruct (applyUpdate w u) as [[w1 x]|e] eqn:Happ; simpl.
    - destruct (applyUpdate_Ok_meta _ _ _ _ Happ) as (? & ? & ? & ? & ?).
      auto.
    - apply applyUpdate_Throw_reserve in Happ. auto 10. }
  destruct (wh_inventory w !! upd_productId u) as [current|]; [|exact Hplain].
  destruct (version current >=? upd_version u); [|exact Hplain].
  unfold handleConflict.
  destruct (upd_timestamp u >? lastUpdated current); [|simpl; auto].
  destruct (applyUpdate w u) as [[w1 x]|e] eqn:Happ; simpl.
  - destruct (applyUpdate_Ok_meta _ _ _ _ Happ) as (? & ? & ? & ? & ?). auto.
  - apply applyUpdate_Throw_reserve in Happ. auto 10.
Qed.

(** The entry stored under a key after [updateInventory]: the one it was
    (the call threw, or the entry is neither the origin nor active), the
    origin with the update applied, or an active target synced. *)
Lemma get_after_updateInventory env wid pid v op (s : Engine) tid target :
  JsMap.get tid (warehouses s) = Some target →
  let update := makeUpdate env s wid pid v op in
  let s' := fst (updateInventory env wid pid v op s) in
  JsMap.get tid (warehouses s') = Some target
  ∨ (tid = wid
     ∧ ∃ w' x, applyUpdate target update = Ok (w', x)
               ∧ JsMap.get tid (warehouses s') = Some w')
  ∨ (tid ≠ wid ∧ wh_status target = "active"
     ∧ JsMap.get tid (warehouses s')
       = Some (syncedWarehouse env target update)).
Proof.
  intros Htid update s'. subst s'. unfold updateInventory.
  destruct (JsMap.get wid (warehouses s)) as [w|] eqn:Hget; [|by left].
  fold update.
  destruct (applyUpdate w update) as [[w' x]|e] eqn:Happ; [|by left].
  simpl. rewrite get_propagateUpdate. simpl.
  destruct (decide (tid = wid)) as [->|Hne].
  - right. left. split; [done|]. rewrite Hget in Htid. injection Htid as ->.
    exists w', x. split; [done|]. rewrite get_set_eq. simpl.
    unfold propagated. simpl. by rewrite String.eqb_refl.
  - rewrite get_set_ne by done. rewrite Htid. simpl. unfold propagated.
    destruct (String.eqb_spec tid (upd_warehouseId update)) as [?|_];
      [done|].
    destruct (String.eqb_spec (wh_status target) "active") as [Hact|_];
      simpl; [|by left].
    right. right. done.
Qed.

(** ** Frame of an update *)

(** Whatever the call and its outcome, every warehouse that was registered
    still is, under the same key, with the same identifier, location and
    status, and with every record of a product other than the update's
    exactly as it was; a warehouse that is neither the origin nor active
    is untouched altogether. *)
Theorem updateInventory_frame env wid pid v op (s : Engine) tid
    (target : Warehouse) :
  JsMap.get tid (warehouses s) = Some target →
  ∃ target',
    JsMap.get tid (warehouses (fst (updateInventory env wid pid v op s)))
      = Some target'
    ∧ (∀ p, p ≠ pid → wh_inventory target' !! p = wh_inventory target !! p)
    ∧ wh_id target' = wh_id target
    ∧ wh_location target' = wh_location target
    ∧ wh_status target' = wh_status target
    ∧ (tid ≠ wid → wh_status target ≠ "active" → target' = target).
Proof.
  intros Htid.
  destruct (get_after_updateInventory env wid pid v op s tid target Htid)
    as [Hsame|[(-> & w' & x & Happ & Hget')|(Hne & Hact & Hget')]].
  - exists target. auto 10.
  - exists w'. split; [done|].
    destruct (applyUpdate_Ok_inventory _ _ _ _ Happ) as (rec & Hi & _).
    destruct (applyUpdate_Ok_meta _ _ _ _ Happ) as (? & ? & ? & _).
    split; [|by auto 10].
    intros p Hp. rewrite Hi. by apply lookup_insert_ne.
  - eexists. split; [exact Hget'|].
    destruct (syncedWarehouse_meta env target (makeUpdate env s wid pid v op))
      as (? & ? & ? & _).
    split; [|by auto 10].
    intros p Hp.
    destruct (syncedWarehouse_inventory env target
                (makeUpdate env s wid pid v op)) as [->|(rec & -> & _)];
      [done|].
    by apply lookup_insert_ne.
Qed.

Lemma updateInventory_frame_witness :
  let s0 := runAll [CallRegister "A" "X"; CallRegister "B" "Y";
                    CallUpdate (envAt 1) "A" "sku1" 10 "set";
                    CallUpdate (envAt 2) "B" "sku2" 7 "set"] newEngine in
  ∃ target',
    JsMap.get "B"
      (warehouses (fst (updateInventory (envAt 3) "A" "sku1" 4 "add" s0)))
      = Some target'
    ∧ wh_inventory target' !! "sku2"
      = Some {| quantity := 7; reserved := 0; version := 1;
                lastUpdated := 2 |}.
Proof.
  intros s0.
  assert (Hget : JsMap.get "B" (warehouses s0)
                 = Some {| wh_id := "B"; wh_location := "Y";
                           wh_inventory :=
                             {[ "sku1" := {| quantity := 10; reserved := 0;
                                             version := 1;
                                             lastUpdated := 1 |};
                                "sku2" := {| quantity := 7; reserved := 0;
                                             version := 1;
                                             lastUpdated := 2 |} ]};
                           wh_lastSync := Some 1; wh_status := "active";
                           wh_lag := 0 |})
    by (vm_compute; reflexivity).
  destruct (updateInventory_frame (envAt 3) "A" "sku1" 4 "add" s0 "B" _ Hget)
    as (target' & Hget' & Hother & _).
  exists target'. split; [exact Hget'|].
  rewrite Hother by discriminate. vm_compute. reflexivity.
Defined.

(** ** The registry over sequences of calls *)

Lemma propagateLoop_entries env u ws log :
  fst (propagateLoop env u ws log)
  = map (fun kw => (fst kw, propagated env u (fst kw) (snd kw))) ws.
Proof.
  revert log. induction ws as [|[k w] ws IH]; intros log; [done|].
  simpl.
  set (b := negb (String.eqb k (upd_warehouseId u))
            && String.eqb (wh_status w) "active").
  assert (Hw : fst (if b then syncToWarehouse env w u log else (w, log))
               = propagated env u k w).
  { unfold propagated. fold b. destruct b; [|done].
    apply syncToWarehouse_fst_log. }
  destruct (if b then syncToWarehouse env w u log else (w, log))
    as [w1 log1].
  specialize (IH log1).
  destruct (propagateLoop env u ws log1) as [ws' log2]. simpl in *.
  by rewrite Hw, IH.
Qed.

Lemma keys_propagateUpdate env u s :
  JsMap.keys (warehouses (propagateUpdate env u s))
  = JsMap.keys (warehouses s).
Proof.
  unfold propagateUpdate.
  pose proof (propagateLoop_entries env u (warehouses s) (conflicts s)) as H.
  destruct (propagateLoop _ _ _ _) as [ws log]. simpl in *. subst ws.
  unfold JsMap.keys. rewrite map_map. by apply map_ext.
Qed.

Lemma keys_updateInventory env wid pid v op s :
  JsMap.keys (warehouses (fst (updateInventory env wid pid v op s)))
  = JsMap.keys (warehouses s).
Proof.
  unfold updateInventory.
  destruct (JsMap.get wid (warehouses s)) as [w|] eqn:Hget; [|done].
  destruct (applyUpdate w _) as [[w' x]|e]; [|done].
  simpl. rewrite keys_propagateUpdate. simpl.
  apply keys_set_present. by rewrite Hget.
Qed.

Lemma get_None_not_key {V : Type} k (m : JsMap.t V) :
  JsMap.get k m = None ↔ k ∉ JsMap.keys m.
Proof.
  induction m as [|[k' v'] m IH]; simpl.
  - split; [intros _; apply not_elem_of_nil|done].
  - rewrite not_elem_of_cons.
    destruct (String.eqb_spec k k') as [->|Hne].
    + split; [done|]. by intros [? _].
    + rewrite IH. tauto.
Qed.

Lemma Forall_set {V : Type} (P : string * V → Prop) k v (m : JsMap.t V) :
  P (k, v) → Forall P m → Forall P (JsMap.set k v m).
Proof.
  intros Hv. induction m as [|[k' v'] m IH]; simpl.
  - intros _. by constructor.
  - intros [Hh Ht]%Forall_cons.
    destruct (String.eqb_spec k k') as [->|Hne]; constructor; auto.
Qed.

(** A property of the engine that registration and [updateInventory] keep
    is kept by every call of the interface, and by every sequence of
    calls. *)
Section CallInvariant.
Variable I : Engine → Prop.
Hypothesis I_register : ∀ wid loc s, I s → I (registerWarehouse wid loc s).
Hypothesis I_update :
  ∀ env wid pid v op s, I s → I (fst (updateInventory env wid pid v op s)).

Lemma syncItems_invariant wid items s :
  I s → I (fst (syncItems wid items s)).
Proof.
  revert s. induction items as [|[env [pid qty]] items IH]; intros s Hs;
    [done|].
  simpl. pose proof (I_update env wid pid qty "set" s Hs) as H1.
  destruct (updateInventory env wid pid qty "set" s) as [s1 [u|e]]; [|done].
  specialize (IH s1 H1).
  by destruct (syncItems wid items s1) as [s2 [us|e]].
Qed.

Lemma run_invariant c s : I s → I (run c s).
Proof.
  intros Hs. destruct c as [wid loc|env wid pid v op|env wid pid v
    |env wid pid v|env1 env2 wid pid v|wid items]; simpl.
  - by apply I_register.
  - by apply I_update.
  - by apply I_update.
  - by apply I_update.
  - unfold commitReservation, releaseInventory.
    pose proof (I_update env1 wid pid v "release" s Hs) as H1.
    destruct (updateInventory env1 wid pid v "release" s) as [s1 [u|e]];
      [|done].
    pose proof (I_update env2 wid pid v "subtract" s1 H1) as H2.
    by destruct (updateInventory env2 wid pid v "subtract" s1)
      as [s2 [u2|e]].
  - unfold syncFromExternalSystem.
    destruct (JsMap.get wid (warehouses s)); [|done].
    by apply syncItems_invariant.
Qed.

Lemma runAll_invariant cs s : I s → I (runAll cs s).
Proof.
  revert s. induction cs as [|c cs IH]; intros s Hs; [done|].
  simpl. apply IH. by apply run_invariant.
Qed.

End CallInvariant.

Lemma registerWarehouse_wellFormed wid loc s :
  NoDup (JsMap.keys (warehouses s)) ∧ Forall entryWellFormed (warehouses s) →
  NoDup (JsMap.keys (warehouses (registerWarehouse wid loc s)))
  ∧ Forall entryWellFormed (warehouses (registerWarehouse wid loc s)).
Proof.
  intros [Hnd Hwf]. simpl. split.
  - destruct (JsMap.get wid (warehouses s)) as [w|] eqn:Hget.
    + rewrite keys_set_present; [done|]. by rewrite Hget.
    + rewrite keys_set_absent by done.
      apply NoDup_app. split; [done|]. split; [|apply NoDup_singleton].
      intros k Hk ->%list_elem_of_singleton.
      by apply get_None_not_key in Hget.
  - apply Forall_set; [|done]. by unfold entryWellFormed.
Qed.

Lemma updateInventory_wellFormed env wid pid v op s :
  NoDup (JsMap.keys (warehouses s)) ∧ Forall entryWellFormed (warehouses s) →
  NoDup (JsMap.keys (warehouses (fst (updateInventory env wid pid v op s))))
  ∧ Forall entryWellFormed
      (warehouses (fst (updateInventory env wid pid v op s))).
Proof.
  intros [Hnd Hwf]. split; [by rewrite keys_updateInventory|].
  unfold updateInventory.
  destruct (JsMap.get wid (warehouses s)) as [w|] eqn:Hget; [|done].
  destruct (applyUpdate w _) as [[w' x]|e] eqn:Happ; [|done].
  simpl. unfold propagateUpdate.
  pose proof (propagateLoop_entries env (makeUpdate env s wid pid v op)
                (JsMap.set wid w' (warehouses s))
                (recordReplaced w pid x (conflicts s))) as Hent.
  simpl in Hent.
  destruct (propagateLoop _ _ _ _) as [ws log]. simpl in *. subst ws.
  apply Forall_map. simpl.
  assert (Hwf' : Forall entryWellFormed (JsMap.set wid w' (warehouses s))).
  { apply Forall_set; [|done].
    apply get_Some_elem_of in Hget.
    rewrite Forall_forall in Hwf. specialize (Hwf _ Hget).
    destruct (applyUpdate_Ok_meta _ _ _ _ Happ) as (Hid & _ & Hst & Hlag & _).
    unfold entryWellFormed in *. simpl in *.
    rewrite Hid, Hst, Hlag. done. }
  eapply Forall_impl; [exact Hwf'|].
  intros [k t] (Hid & Hst & Hlag). unfold entryWellFormed in *. simpl in *.
  unfold propagated.
  destruct (negb _ && _); [|done].
  destruct (syncedWarehouse_meta env t (makeUpdate env s wid pid v op))
    as (Hid' & _ & Hst' & Hlag').
  rewrite Hid', Hst'. split; [done|]. split; [done|].
  destruct Hlag' as [->|(-> & _)]; lia.
Qed.

Lemma activeWarehouses_all ws :
  Forall entryWellFormed ws →
  length (filter (fun w => String.eqb (ss_status w) "active" = true)
            (map statusOf ws)) = length ws.
Proof.
  induction ws as [|[k w] ws IH]; [done|].
  intros [(_ & Hst & _) Hws]%Forall_cons. simpl in Hst.
  cbn [map]. rewrite filter_cons_True; [simpl; by rewrite IH|].
  simpl. by rewrite Hst.
Qed.

(** After any sequence of calls on a new engine the registry holds each
    identifier once, every warehouse carries its key as identifier, is
    active and has a lag that is not negative; so [getSyncStatus] counts
    every warehouse as active. *)
Theorem reachable_registry_well_formed (cs : list Call) :
  let s := runAll cs newEngine in
  NoDup (JsMap.keys (warehouses s))
  ∧ Forall entryWellFormed (warehouses s)
  ∧ sy_activeWarehouses (getSyncStatus s)
    = sy_totalWarehouses (getSyncStatus s).
Proof.
  intros s.
  assert (H : NoDup (JsMap.keys (warehouses s))
              ∧ Forall entryWellFormed (warehouses s)).
  { subst s.
    apply (runAll_invariant
             (fun s => NoDup (JsMap.keys (warehouses s))
                       ∧ Forall entryWellFormed (warehouses s))).
    - intros. by apply registerWarehouse_wellFormed.
    - intros. by apply updateInventory_wellFormed.
    - split; [apply NoDup_nil_2|constructor]. }
  destruct H as [Hnd Hwf]. split; [done|]. split; [done|].
  simpl. by apply activeWarehouses_all.
Qed.

Lemma keys_syncItems wid items s :
  JsMap.keys (warehouses (fst (syncItems wid items s)))
  = JsMap.keys (warehouses s).
Proof.
  revert s. induction items as [|[env [pid qty]] items IH]; intros s; [done|].
  simpl.
  pose proof (keys_updateInventory env wid pid qty "set" s) as H1.
  destruct (updateInventory env wid pid qty "set" s) as [s1 [u|e]]; [|done].
  specialize (IH s1).
  destruct (syncItems wid items s1) as [s2 [us|e]]; simpl in *; congruence.
Qed.

(** No call removes a warehouse or changes the order of the registry:
    only the registration of a new identifier changes the list of
    identifiers, by appending the new one. *)
Theorem registry_never_shrinks (c : Call) (s : Engine) :
  JsMap.keys (warehouses (run c s)) = JsMap.keys (warehouses s)
  ∨ ∃ wid loc, c = CallRegister wid loc
               ∧ JsMap.get wid (warehouses s) = None
               ∧ JsMap.keys (warehouses (run c s))
                 = JsMap.keys (warehouses s) ++ [wid].
Proof.
  destruct c as [wid loc|env wid pid v op|env wid pid v
    |env wid pid v|env1 env2 wid pid v|wid items]; simpl.
  - destruct (JsMap.get wid (warehouses s)) as [w|] eqn:Hget.
    + left. apply keys_set_present. by rewrite Hget.
    + right. exists wid, loc. split; [done|]. split; [done|].
      by apply keys_set_absent.
  - left. apply keys_updateInventory.
  - left. apply keys_updateInventory.
  - left. apply keys_updateInventory.
  - left. unfold commitReservation, releaseInventory.
    pose proof (keys_updateInventory env1 wid pid v "release" s) as H1.
    destruct (updateInventory env1 wid pid v "release" s) as [s1 [u|e]];
      [|done].
    pose proof (keys_updateInventory env2 wid pid v "subtract" s1) as H2.
    destruct (updateInventory env2 wid pid v "subtract" s1) as [s2 [u2|e]];
      simpl in *; congruence.
  - left. unfold syncFromExternalSystem.
    destruct (JsMap.get wid (warehouses s)); [|done].
    apply keys_syncItems.
Qed.

(** ** The conflict log *)

Lemma carriedOver_refl pid c : carriedOver pid c c.
Proof. by unfold carriedOver. Qed.

Lemma carriedOver_trans pid c1 c2 c3 :
  carriedOver pid c1 c2 → carriedOver pid c2 c3 → carriedOver pid c1 c3.
Proof.
  intros (Hf1 & Hs1 & Hp1) (Hf2 & Hs2 & Hp2). split; [congruence|]. split.
  - intros Hs. rewrite (Hs1 Hs) in *. auto.
  - intros Hp. rewrite (Hp1 Hp) in *. auto.
Qed.

Lemma carriedOver_loggedFor pid u c c' :
  carriedOver pid c c' → loggedFor u c → loggedFor u c'.
Proof.
  intros (Hf & _ & _). unfold fixedFields in Hf.
  injection Hf as _ _ Hp Hu _ _ _ _ Hr Ht.
  unfold loggedFor. by rewrite Hp, Hu, Hr, Ht.
Qed.

Lemma recordReplaced_carriedOver w pid x log :
  Forall2 (carriedOver pid) log (recordReplaced w pid x log).
Proof.
  unfold recordReplaced. apply Forall2_fmap_r, Forall_Forall2_diag.
  apply Forall_forall. intros c _. unfold compose, referencesRecord.
  destruct (cf_shared c) eqn:Hs; simpl; [|apply carriedOver_refl].
  destruct (String.eqb_spec (cf_warehouseId c) (wh_id w)) as [_|_]; simpl;
    [|apply carriedOver_refl].
  destruct (String.eqb_spec (cf_productId c) pid) as [Hp|_];
    [|apply carriedOver_refl].
  split; [|split; [intros; congruence|by intros ?]].
  unfold fixedFields. simpl. by destruct (wh_inventory w !! pid).
Qed.

Lemma Forall2_carriedOver_refl pid log : Forall2 (carriedOver pid) log log.
Proof. apply Forall_Forall2_diag, Forall_forall. intros. apply carriedOver_refl. Qed.

Lemma Forall2_carriedOver_trans pid l1 l2 l3 :
  Forall2 (carriedOver pid) l1 l2 → Forall2 (carriedOver pid) l2 l3 →
  Forall2 (carriedOver pid) l1 l3.
Proof. apply Forall2_trans. intros ???. apply carriedOver_trans. Qed.

Lemma Forall2_carriedOver_fixed pid l1 l2 :
  Forall2 (carriedOver pid) l1 l2 → map fixedFields l2 = map fixedFields l1.
Proof.
  induction 1 as [|c c' l l' (Hf & _) _ IH]; [done|]. simpl. by rewrite Hf, IH.
Qed.

Lemma Forall2_carriedOver_unresolved pid l1 l2 :
  Forall2 (carriedOver pid) l1 l2 →
  length (filter (fun c => negb (cf_resolved c) = true) l2)
  = length (filter (fun c => negb (cf_resolved c) = true) l1).
Proof.
  induction 1 as [|c c' l l' (Hf & _) _ IH]; [done|].
  unfold fixedFields in Hf. injection Hf as _ _ _ _ _ _ _ _ Hr _.
  rewrite !filter_cons, Hr.
  destruct (decide (negb (cf_resolved c) = true)); simpl; by rewrite IH.
Qed.

(** What one sync does to the log: the conflicts logged before are carried
    over, and at most one conflict is appended. *)
Lemma syncToWarehouse_log env w u log :
  ∃ old new,
    snd (syncToWarehouse env w u log) = old ++ new
    ∧ Forall2 (carriedOver (upd_productId u)) log old
    ∧ (length new ≤ 1)%nat
    ∧ Forall (loggedFor u) new.
Proof.
  unfold syncToWarehouse.
  assert (Hplain : ∃ old new,
    snd (match applyUpdate w u with
         | Ok (w1, x) =>
             (withLastSync (env_syncTime env (wh_id w)) w1,
              recordReplaced w (upd_productId u) x log)
         | Throw _ => (withLagIncremented w, log)
         end) = old ++ new
    ∧ Forall2 (carriedOver (upd_productId u)) log old
    ∧ (length new ≤ 1)%nat ∧ Forall (loggedFor u) new).
  { destruct (applyUpdate w u) as [[w1 x]|e]; simpl.
    - exists (recordReplaced w (upd_productId u) x log), [].
      rewrite app_nil_r. split; [done|].
      split; [apply recordReplaced_carriedOver|]. simpl. auto with lia.
    - exists log, []. rewrite app_nil_r. split; [done|].
      split; [apply Forall2_carriedOver_refl|]. simpl. auto with lia. }
  destruct (wh_inventory w !! upd_productId u) as [current|];
    [|exact Hplain].
  destruct (version current >=? upd_version u); [|exact Hplain].
  unfold handleConflict.
  destruct (upd_timestamp u >? lastUpdated current).
  - destruct (applyUpdate w u) as [[w1 x]|e] eqn:Happ; simpl.
    + eexists _, [_]. split; [reflexivity|].
      split; [apply recordReplaced_carriedOver|]. split; [simpl; lia|].
      constructor; [|constructor]. unfold loggedFor. simpl. auto 10.
    + apply applyUpdate_Throw_reserve in Happ.
      eexists _, [_]. split; [reflexivity|].
      split; [apply Forall2_carriedOver_refl|]. split; [simpl; lia|].
      constructor; [|constructor]. unfold loggedFor. simpl. auto 10.
  - simpl. eexists _, [_]. split; [reflexivity|].
    split; [apply Forall2_carriedOver_refl|]. split; [simpl; lia|].
    constructor; [|constructor]. unfold loggedFor. simpl. auto 10.
Qed.

Lemma propagateLoop_log env u ws log :
  ∃ old new,
    snd (propagateLoop env u ws log) = old ++ new
    ∧ Forall2 (carriedOver (upd_productId u)) log old
    ∧ (length new ≤ length ws)%nat
    ∧ Forall (loggedFor u) new.
Proof.
  revert log. induction ws as [|[k w] ws IH]; intros log.
  - exists log, []. simpl. rewrite app_nil_r.
    split; [done|]. split; [apply Forall2_carriedOver_refl|]. auto.
  - simpl.
    assert (Hstep : ∃ old1 new1,
      snd (if negb (String.eqb k (upd_warehouseId u))
              && String.eqb (wh_status w) "active"
           then syncToWarehouse env w u log else (w, log)) = old1 ++ new1
      ∧ Forall2 (carriedOver (upd_productId u)) log old1
      ∧ (length new1 ≤ 1)%nat ∧ Forall (loggedFor u) new1).
    { destruct (negb _ && _); [apply syncToWarehouse_log|].
      exists log, []. simpl. rewrite app_nil_r.
      split; [done|]. split; [apply Forall2_carriedOver_refl|]. auto. }
    destruct Hstep as (old1 & new1 & Hlog1 & Hold1 & Hlen1 & Hall1).
    destruct (if negb _ && _ then _ else _) as [w1 log1]. simpl in Hlog1.
    destruct (IH log1) as (old2 & new2 & Hlog2 & Hold2 & Hlen2 & Hall2).
    destruct (propagateLoop env u ws log1) as [ws' log2]. simpl in *.
    subst log1 log2.
    apply Forall2_app_inv_l in Hold2 as (oldA & newA & HoldA & HnewA & ->).
    exists oldA, (newA ++ new2). rewrite <- app_assoc. split; [done|].
    split; [by eapply Forall2_carriedOver_trans|].
    rewrite length_app, <- (Forall2_length _ _ _ HnewA). split; [lia|].
    apply Forall_app. split; [|done].
    clear -Hall1 HnewA.
    induction HnewA as [|c c' l l' Hc _ IH']; [constructor|].
    apply Forall_cons in Hall1 as [H1 Hl]. constructor; [|by apply IH'].
    by eapply carriedOver_loggedFor.
Qed.

Lemma updateInventory_log env wid pid v op s :
  ∃ old new,
    conflicts (fst (updateInventory env wid pid v op s)) = old ++ new
    ∧ Forall2 (carriedOver pid) (conflicts s) old
    ∧ (length new ≤ length (warehouses s))%nat
    ∧ Forall (loggedFor (makeUpdate env s wid pid v op)) new.
Proof.
  unfold updateInventory.
  destruct (JsMap.get wid (warehouses s)) as [w|] eqn:Hget.
  2:{ exists (conflicts s), []. simpl. rewrite app_nil_r.
      split; [done|]. split; [apply Forall2_carriedOver_refl|].
      auto with lia. }
  destruct (applyUpdate w _) as [[w' x]|e].
  2:{ exists (conflicts s), []. simpl. rewrite app_nil_r.
      split; [done|]. split; [apply Forall2_carriedOver_refl|].
      auto with lia. }
  simpl. unfold propagateUpdate.
  destruct (propagateLoop_log env (makeUpdate env s wid pid v op)
              (JsMap.set wid w' (warehouses s))
              (recordReplaced w pid x (conflicts s)))
    as (old & new & Hlog & Hold & Hlen & Hall).
  simpl in Hlog, Hold, Hlen.
  destruct (propagateLoop _ _ _ _) as [ws log]. simpl in *.
  exists old, new. split; [done|]. split.
  { eapply Forall2_carriedOver_trans; [|exact Hold].
    apply recordReplaced_carriedOver. }
  split; [|done].
  assert (Hk : length (JsMap.set wid w' (warehouses s))
               = length (warehouses s)).
  { rewrite <- (length_map fst (JsMap.set wid w' (warehouses s))).
    rewrite <- (length_map fst (warehouses s)).
    fold (JsMap.keys (JsMap.set wid w' (warehouses s))).
    rewrite keys_set_present; [done|]. by rewrite Hget. }
  lia.
Qed.

(** What an update does to the conflict log.  The conflicts logged before
    it are all still there, in order, with the same identifier, warehouse,
    product, incoming update, timestamp, resolved flag, resolution tag and
    the same quantity, version and timestamp of the current state; a
    conflict that no longer references a stored record, or that concerns
    another product, is exactly as it was.  The update appends at most one
    conflict per registered warehouse, each referring to the update, each
    either resolved with one of the two resolution tags or — for a
    reservation only — unresolved.  An operation other than [reserve]
    therefore leaves the number of unresolved conflicts as it was.  And no
    call of the interface removes a logged conflict or changes one of its
    fixed fields. *)
Theorem conflict_log_only_grows env wid pid v op (s : Engine) :
  (∃ old new,
     conflicts (fst (updateInventory env wid pid v op s)) = old ++ new
     ∧ Forall2 (carriedOver pid) (conflicts s) old
     ∧ (length new ≤ length (warehouses s))%nat
     ∧ Forall (loggedFor (makeUpdate env s wid pid v op)) new
     ∧ (op ≠ "reserve" →
        sy_unresolvedConflicts
          (getSyncStatus (fst (updateInventory env wid pid v op s)))
        = sy_unresolvedConflicts (getSyncStatus s)))
  ∧ (∀ (c : Call) (s0 : Engine),
       map fixedFields (conflicts s0)
         `prefix_of` map fixedFields (conflicts (run c s0))
       ∧ (sy_conflicts (getSyncStatus s0)
          ≤ sy_conflicts (getSyncStatus (run c s0)))%nat).
Proof.
  split.
  - destruct (updateInventory_log env wid pid v op s)
      as (old & new & Hlog & Hold & Hlen & Hall).
    exists old, new. split; [done|]. split; [done|]. split; [done|].
    split; [done|].
    intros Hop. simpl. rewrite Hlog, filter_app, length_app.
    rewrite (Forall2_carriedOver_unresolved _ _ _ Hold).
    assert (Hnil : filter (fun c => negb (cf_resolved c) = true) new = []).
    { clear Hlog Hlen. induction new as [|c new IH]; [done|].
      apply Forall_cons in Hall as [(_ & _ & Hc) Hall].
      rewrite filter_cons_False; [by apply IH|].
      destruct Hc as [[-> _]|(_ & _ & Hres)]; [done|]. simpl in Hres. done. }
    rewrite Hnil. simpl. lia.
  - intros c s0.
    assert (Hp : map fixedFields (conflicts s0)
                   `prefix_of` map fixedFields (conflicts (run c s0))).
    { apply (run_invariant
               (fun st => map fixedFields (conflicts s0)
                            `prefix_of` map fixedFields (conflicts st)));
        [| |done].
      - intros ? ? st Hst. exact Hst.
      - intros env' wid' pid' v' op' st Hst.
        destruct (updateInventory_log env' wid' pid' v' op' st)
          as (old & new & -> & Hold & _).
        rewrite map_app, (Forall2_carriedOver_fixed _ _ _ Hold).
        etrans; [exact Hst|]. by eexists. }
    split; [done|]. simpl.
    apply prefix_length in Hp. by rewrite !length_map in Hp.
Qed.

(** ** Lag *)

(** An update changes the lag of a warehouse only by adding one, only at
    an active warehouse other than the origin, only when the operation is
    [reserve]; the inventory of that warehouse is then untouched.  Every
    other operation leaves every lag as it was. *)
Theorem updateInventory_lag env wid pid v op (s : Engine) tid
    (target : Warehouse) :
  JsMap.get tid (warehouses s) = Some target →
  ∃ target',
    JsMap.get tid (warehouses (fst (updateInventory env wid pid v op s)))
      = Some target'
    ∧ (wh_lag target' = wh_lag target
       ∨ (wh_lag target' = wh_lag target + 1
          ∧ tid ≠ wid ∧ wh_status target = "active" ∧ op = "reserve"
          ∧ wh_inventory target' = wh_inventory target)).
Proof.
  intros Htid.
  destruct (get_after_updateInventory env wid pid v op s tid target Htid)
    as [Hsame|[(-> & w' & x & Happ & Hget')|(Hne & Hact & Hget')]].
  - exists target. auto.
  - exists w'. split; [done|]. left.
    by destruct (applyUpdate_Ok_meta _ _ _ _ Happ) as (_ & _ & _ & ? & _).
  - eexists. split; [exact Hget'|].
    destruct (syncedWarehouse_meta env target (makeUpdate env s wid pid v op))
      as (_ & _ & _ & [Hlag|(Hlag & Hop & Hinv)]); [by left|].
    right. simpl in Hop. auto.
Qed.

Lemma updateInventory_lag_witness :
  let s0 := runAll [CallRegister "A" "X";
                    CallUpdate (envAt 1) "A" "sku1" 10 "set";
                    CallRegister "B" "Y"] newEngine in
  let s1 := fst (updateInventory (envAt 2) "A" "sku1" 5 "reserve" s0) in
  ∃ target',
    JsMap.get "B" (warehouses s1) = Some target'
    ∧ (wh_lag target' = 0
       ∨ (wh_lag target' = 0 + 1 ∧ "B" ≠ "A" ∧ "active" = "active"
          ∧ "reserve" = "reserve"
          ∧ wh_inventory target' = ∅)).
Proof.
  intros s0 s1.
  apply (updateInventory_lag (envAt 2) "A" "sku1" 5 "reserve" s0 "B"
           (freshWarehouse "B" "Y")).
  vm_compute. reflexivity.
Defined.

(** ** Targets of a propagation *)

(** The warehouse a sync leaves behind, case by case: without conflict the
    update is applied and the sync time recorded, or the application
    throws and the lag grows; with a conflict the target is kept as it is
    (the update is not newer), replaced by the applied update (it is
    newer), or only lagged (it is newer and its application throws). *)
Lemma syncedWarehouse_cases env w u :
  let sw := syncedWarehouse env w u in
  ((∀ cur, wh_inventory w !! upd_productId u = Some cur →
           version cur < upd_version u)
   ∧ ((∃ w1 x, applyUpdate w u = Ok (w1, x)
               ∧ sw = withLastSync (env_syncTime env (wh_id w)) w1)
      ∨ (∃ e, applyUpdate w u = Throw e ∧ sw = withLagIncremented w)))
  ∨ (∃ cur, wh_inventory w !! upd_productId u = Some cur
            ∧ upd_version u ≤ version cur
            ∧ ((upd_timestamp u ≤ lastUpdated cur ∧ sw = w)
               ∨ (lastUpdated cur < upd_timestamp u
                  ∧ ∃ w1 x, applyUpdate w u = Ok (w1, x) ∧ sw = w1)
               ∨ (lastUpdated cur < upd_timestamp u
                  ∧ ∃ e, applyUpdate w u = Throw e
                         ∧ sw = withLagIncremented w))).
Proof.
  unfold syncedWarehouse, syncToWarehouse.
  destruct (wh_inventory w !! upd_productId u) as [current|] eqn:Hcur.
  - destruct (version current >=? upd_version u) eqn:Hge.
    + right. exists current. split; [done|]. split; [lia|].
      unfold handleConflict.
      destruct (upd_timestamp u >? lastUpdated current) eqn:Hts.
      * destruct (applyUpdate w u) as [[w1 x]|e] eqn:Happ; simpl.
        -- right. left. split; [lia|]. eauto.
        -- right. right. split; [lia|]. eauto.
      * simpl. left. split; [lia|done].
    + left. split; [intros cur [= <-]; lia|].
      destruct (applyUpdate w u) as [[w1 x]|e] eqn:Happ; simpl; eauto.
  - left. split; [done|].
    destruct (applyUpdate w u) as [[w1 x]|e] eqn:Happ; simpl; eauto.
Qed.

Lemma get_target_after_Ok env wid pid v op (s : Engine) w w' x tid target :
  JsMap.get wid (warehouses s) = Some w →
  applyUpdate w (makeUpdate env s wid pid v op) = Ok (w', x) →
  tid ≠ wid →
  JsMap.get tid (warehouses s) = Some target →
  wh_status target = "active" →
  JsMap.get tid (warehouses (fst (updateInventory env wid pid v op s)))
  = Some (syncedWarehouse env target (makeUpdate env s wid pid v op)).
Proof.
  intros Hget Happ Hne Htid Hact. unfold updateInventory.
  rewrite Hget, Happ. simpl. rewrite get_propagateUpdate. simpl.
  rewrite get_set_ne by done. rewrite Htid. simpl. unfold propagated.
  simpl. rewrite Hact.
  by destruct (String.eqb_spec tid wid) as [?|_].
Qed.

(** Replicas that agree stay in agreement: when an active warehouse holds,
    for the product, the same record as the origin (or both hold none)
    and the call returns, then afterwards the two again hold the same
    record for the product, and the target's last sync is stamped. *)
Theorem replicas_stay_in_sync env wid pid v op (s : Engine)
    (w : Warehouse) tid (target : Warehouse) :
  JsMap.get wid (warehouses s) = Some w →
  JsMap.get tid (warehouses s) = Some target →
  tid ≠ wid →
  wh_status target = "active" →
  wh_inventory target !! pid = wh_inventory w !! pid →
  isOk (snd (updateInventory env wid pid v op s)) = true →
  ∃ w' t',
    JsMap.get wid (warehouses (fst (updateInventory env wid pid v op s)))
      = Some w'
    ∧ JsMap.get tid (warehouses (fst (updateInventory env wid pid v op s)))
      = Some t'
    ∧ is_Some (wh_inventory w' !! pid)
    ∧ wh_inventory t' !! pid = wh_inventory w' !! pid
    ∧ wh_lastSync t' = Some (env_syncTime env (wh_id target)).
Proof.
  intros Hget Htid Hne Hact Hsame Hok.
  set (u := makeUpdate env s wid pid v op).
  assert (Hargs : applyOperation op (curQuantityOf (wh_inventory w !! pid))
                    (curReservedOf (wh_inventory w !! pid)) v
                  = applyOperation op
                      (curQuantityOf (wh_inventory target !! pid))
                      (curReservedOf (wh_inventory target !! pid)) v)
    by (by rewrite Hsame).
  destruct (applyOperation op (curQuantityOf (wh_inventory w !! pid))
              (curReservedOf (wh_inventory w !! pid)) v)
    as [[q' r']|e] eqn:Hop.
  2:{ exfalso. revert Hok. unfold updateInventory, applyUpdate.
      rewrite Hget. simpl. by rewrite Hop. }
  destruct (updateInventory_Ok env wid pid v op s w q' r' Hget Hop)
    as (w' & _ & Hget' & Hinv').
  assert (Happw : ∃ w0 x, applyUpdate w u = Ok (w0, x)).
  { unfold applyUpdate. simpl. rewrite Hop. eauto. }
  destruct Happw as (w0 & x & Happw).
  pose proof (get_target_after_Ok env wid pid v op s w w0 x tid target
                Hget Happw Hne Htid Hact) as Hget_t.
  fold u in Hget_t.
  exists w', (syncedWarehouse env target u).
  split; [done|]. split; [done|].
  rewrite Hinv', lookup_insert_eq. split; [by eexists|].
  assert (Happt : applyUpdate target u
                  = Ok ({| wh_id := wh_id target;
                           wh_location := wh_location target;
                           wh_inventory :=
                             <[pid := {| quantity := q'; reserved := r';
                                         version := upd_version u;
                                         lastUpdated := upd_timestamp u |}]>
                               (wh_inventory target);
                           wh_lastSync := wh_lastSync target;
                           wh_status := wh_status target;
                           wh_lag := wh_lag target |}, r')).
  { unfold applyUpdate. simpl. by rewrite <- Hargs. }
  destruct (syncedWarehouse_cases env target u)
    as [(_ & [(w1 & x1 & Hw1 & ->)|(e & He & _)])
       |(cur & Hcur & Hver & _)].
  - rewrite Happt in Hw1. injection Hw1 as <- <-. simpl.
    by rewrite lookup_insert_eq.
  - by rewrite Happt in He.
  - exfalso. simpl in Hcur, Hver. rewrite Hsame in Hcur.
    unfold getVersion in Hver. rewrite Hget, Hcur in Hver. lia.
Qed.

Lemma replicas_stay_in_sync_witness :
  let s0 := runAll [CallRegister "A" "X"; CallRegister "B" "Y";
                    CallUpdate (envAt 1) "A" "sku1" 10 "set"] newEngine in
  let s1 := fst (updateInventory (envAt 2) "B" "sku1" 4 "reserve" s0) in
  ∃ w' t',
    JsMap.get "B" (warehouses s1) = Some w'
    ∧ JsMap.get "A" (warehouses s1) = Some t'
    ∧ is_Some (wh_inventory w' !! "sku1")
    ∧ wh_inventory t' !! "sku1" = wh_inventory w' !! "sku1"
    ∧ wh_lastSync t' = Some 2.
Proof.
  intros s0 s1.
  apply (replicas_stay_in_sync (envAt 2) "B" "sku1" 4 "reserve" s0
           {| wh_id := "B"; wh_location := "Y";
              wh_inventory :=
                {[ "sku1" := {| quantity := 10; reserved := 0; version := 1;
                                lastUpdated := 1 |} ]};
              wh_lastSync := Some 1; wh_status := "active"; wh_lag := 0 |}
           "A"
           {| wh_id := "A"; wh_location := "X";
              wh_inventory :=
                {[ "sku1" := {| quantity := 10; reserved := 0; version := 1;
                                lastUpdated := 1 |} ]};
              wh_lastSync := None; wh_status := "active"; wh_lag := 0 |}).
  - vm_compute. reflexivity.
  - vm_compute. reflexivity.
  - discriminate.
  - reflexivity.
  - vm_compute. reflexivity.
  - vm_compute. reflexivity.
Defined.

(** A [set] reaches every other active warehouse unless that warehouse
    keeps its record: after the call the target's record of the product
    has the value set as quantity, its own reserved count, and the
    update's version and timestamp — or the target is exactly as it was,
    holding a record of at least the update's version whose timestamp is
    not older than the update's. *)
Theorem set_reaches_replicas env wid pid v (s : Engine) (w : Warehouse)
    tid (target : Warehouse) :
  JsMap.get wid (warehouses s) = Some w →
  JsMap.get tid (warehouses s) = Some target →
  tid ≠ wid →
  wh_status target = "active" →
  let u := makeUpdate env s wid pid v "set" in
  ∃ t',
    JsMap.get tid (warehouses (fst (updateInventory env wid pid v "set" s)))
      = Some t'
    ∧ (wh_inventory t' !! pid
       = Some {| quantity := v;
                 reserved := curReservedOf (wh_inventory target !! pid);
                 version := upd_version u;
                 lastUpdated := env_now env |}
       ∨ (t' = target
          ∧ ∃ cur, wh_inventory target !! pid = Some cur
                   ∧ upd_version u ≤ version cur
                   ∧ env_now env ≤ lastUpdated cur)).
Proof.
  intros Hget Htid Hne Hact u.
  assert (Happw : ∃ w0 x, applyUpdate w u = Ok (w0, x)).
  { unfold applyUpdate. simpl. eauto. }
  destruct Happw as (w0 & x & Happw).
  pose proof (get_target_after_Ok env wid pid v "set" s w w0 x tid target
                Hget Happw Hne Htid Hact) as Hget_t.
  fold u in Hget_t.
  exists (syncedWarehouse env target u). split; [done|].
  assert (Happt : ∃ w1 x1, applyUpdate target u = Ok (w1, x1)
            ∧ wh_inventory w1 !! pid
              = Some {| quantity := v;
                        reserved := curReservedOf (wh_inventory target !! pid);
                        version := upd_version u;
                        lastUpdated := env_now env |}).
  { unfold applyUpdate. simpl. eexists _, _. split; [reflexivity|].
    simpl. by rewrite lookup_insert_eq. }
  destruct Happt as (w1 & x1 & Happt & Hrec).
  destruct (syncedWarehouse_cases env target u)
    as [(_ & [(w2 & x2 & Hw2 & ->)|(e & He & _)])
       |(cur & Hcur & Hver & [(Hts & ->)|[(Hts & w2 & x2 & Hw2 & ->)
                                          |(Hts & e & He & _)]])].
  - rewrite Happt in Hw2. injection Hw2 as <- <-. by left.
  - by rewrite Happt in He.
  - right. split; [done|]. exists cur. simpl in *. auto.
  - rewrite Happt in Hw2. injection Hw2 as <- <-. by left.
  - by rewrite Happt in He.
Qed.

Lemma set_reaches_replicas_witness :
  let s0 := runAll [CallRegister "B" "Y";
                    CallUpdate (envAt 1) "B" "sku1" 5 "set";
                    CallReserve (envAt 2) "B" "sku1" 2;
                    CallRegister "A" "X"] newEngine in
  ∃ t',
    JsMap.get "B"
      (warehouses (fst (updateInventory (envAt 3) "A" "sku1" 100 "set" s0)))
      = Some t'
    ∧ wh_inventory t' !! "sku1"
      = Some {| quantity := 100; reserved := 2; version := 1;
                lastUpdated := 3 |}.
Proof.
  intros s0.
  assert (HgetA : JsMap.get "A" (warehouses s0) = Some (freshWarehouse "A" "X"))
    by (vm_compute; reflexivity).
  assert (HgetB : JsMap.get "B" (warehouses s0)
                  = Some {| wh_id := "B"; wh_location := "Y";
                            wh_inventory :=
                              {[ "sku1" := {| quantity := 5; reserved := 2;
                                              version := 2;
                                              lastUpdated := 2 |} ]};
                            wh_lastSync := None; wh_status := "active";
                            wh_lag := 0 |})
    by (vm_compute; reflexivity).
  destruct (set_reaches_replicas (envAt 3) "A" "sku1" 100 s0 _ "B" _
              HgetA HgetB) as (t' & Hget' & [Hrec|(_ & cur & Hcur & _ & Hts)]).
  - discriminate.
  - reflexivity.
  - exists t'. split; [exact Hget'|]. rewrite Hrec. vm_compute. reflexivity.
  - exfalso. vm_compute in Hcur. injection Hcur as <-.
    vm_compute in Hts. by apply Hts.
Defined.

(** ** The global inventory *)

Lemma globalLoop_spec productId ws tq tr out :
  ∃ es,
    globalLoop productId ws (tq, tr, out)
      = (tq + sumOf st_quantity es, tr + sumOf st_reserved es, out ++ es)
    ∧ map st_warehouseId es
      = map fst (filter (fun kw => is_Some (wh_inventory (snd kw) !! productId))
                   ws)
    ∧ Forall (fun e =>
        ∃ w rec, (st_warehouseId e, w) ∈ ws
                 ∧ wh_inventory w !! productId = Some rec
                 ∧ st_location e = wh_location w
                 ∧ st_quantity e = quantity rec
                 ∧ st_reserved e = reserved rec
                 ∧ st_available e = quantity rec - reserved rec) es.
Proof.
  revert tq tr out. induction ws as [|[k w] ws IH]; intros tq tr out.
  - exists []. simpl. rewrite app_nil_r, !Z.add_0_r. by repeat split.
  - simpl. rewrite filter_cons. simpl.
    destruct (wh_inventory w !! productId) as [rec|] eqn:Hrec.
    + rewrite decide_True by (by eexists).
      destruct (IH (tq + quantity rec) (tr + reserved rec)
                  (out ++ [ {| st_warehouseId := k;
                               st_location := wh_location w;
                               st_quantity := quantity rec;
                               st_reserved := reserved rec;
                               st_available := quantity rec - reserved rec |} ]))
        as (es & -> & Hids & Hall).
      exists ({| st_warehouseId := k; st_location := wh_location w;
                 st_quantity := quantity rec; st_reserved := reserved rec;
                 st_available := quantity rec - reserved rec |} :: es).
      simpl. rewrite <- app_assoc. simpl.
      split; [unfold sumOf; simpl; f_equal; f_equal; lia|].
      split; [by rewrite Hids|].
      constructor.
      * exists w, rec. simpl. split; [apply list_elem_of_here|done].
      * eapply Forall_impl; [exact Hall|].
        intros e (w0 & rec0 & Hin & H). exists w0, rec0.
        split; [by apply list_elem_of_further|done].
    + rewrite decide_False by (by intros [? ?]).
      destruct (IH tq tr out) as (es & -> & Hids & Hall).
      exists es. split; [done|]. split; [done|].
      eapply Forall_impl; [exact Hall|].
      intros e (w0 & rec0 & Hin & H). exists w0, rec0.
      split; [by apply list_elem_of_further|done].
Qed.

(** The breakdown of [getGlobalInventory] has one entry for each warehouse
    that holds a record of the product, in registration order, and none
    for the others; each entry copies the record's quantity and reserved
    count and the warehouse's location; and the three totals are the sums
    of the entries' quantity, reserved and available fields. *)
Theorem getGlobalInventory_totals (now : Z) (s : Engine) (productId : string) :
  let g := getGlobalInventory now s productId in
  gi_totalQuantity g = sumOf st_quantity (gi_warehouses g)
  ∧ gi_totalReserved g = sumOf st_reserved (gi_warehouses g)
  ∧ gi_totalAvailable g = sumOf st_available (gi_warehouses g)
  ∧ map st_warehouseId (gi_warehouses g)
    = map fst (filter (fun kw => is_Some (wh_inventory (snd kw) !! productId))
                 (warehouses s))
  ∧ Forall (fun e =>
      ∃ w rec, (st_warehouseId e, w) ∈ warehouses s
               ∧ wh_inventory w !! productId = Some rec
               ∧ st_location e = wh_location w
               ∧ st_quantity e = quantity rec
               ∧ st_reserved e = reserved rec
               ∧ st_available e = quantity rec - reserved rec)
      (gi_warehouses g).
Proof.
  unfold getGlobalInventory.
  destruct (globalLoop_spec productId (warehouses s) 0 0 [])
    as (es & -> & Hids & Hall).
  simpl. split; [done|]. split; [done|]. split; [|done].
  clear Hids. induction es as [|e es IH]; [done|].
  apply Forall_cons in Hall as [(w & rec & _ & _ & _ & Hq & Hr & Ha) Hall].
  specialize (IH Hall). unfold sumOf in *. simpl. lia.
Qed.

(** ** Reads do not look at status, lag or last sync *)

Lemma globalLoop_sameStock productId ws1 ws2 acc :
  sameStock ws1 ws2 →
  globalLoop productId ws1 acc = globalLoop productId ws2 acc.
Proof.
  intros H. revert acc.
  induction H as [|[k1 w1] [k2 w2] ws1 ws2 (Hk & Hloc & Hinv) _ IH];
    intros acc; [done|].
  simpl in *. subst k2. rewrite Hinv, Hloc.
  destruct (wh_inventory w2 !! productId) as [rec|]; [|apply IH].
  destruct acc as [[tq tr] out]. apply IH.
Qed.

Lemma candidatesLoop_sameStock draw productId qty dest ws1 ws2 k :
  sameStock ws1 ws2 →
  candidatesLoop draw productId qty dest ws1 k
  = candidatesLoop draw productId qty dest ws2 k.
Proof.
  intros H. revert k.
  induction H as [|[k1 w1] [k2 w2] ws1 ws2 (Hk & Hloc & Hinv) _ IH];
    intros k; [done|].
  simpl in *. subst k2. rewrite Hinv, Hloc.
  destruct (wh_inventory w2 !! productId) as [rec|]; [|apply IH].
  destruct (quantity rec - reserved rec >=? qty); [|apply IH].
  by rewrite IH.
Qed.

(** [getGlobalInventory] and [findOptimalWarehouse] depend only on the
    identifiers, locations and inventories of the registry, in order: a
    warehouse whose status is not active is counted in the totals and
    offered for fulfillment all the same. *)
Theorem reads_ignore_status (now : Z) (draw : nat → Z) (s1 s2 : Engine)
    (productId : string) (qty : Z) (dest : string) :
  sameStock (warehouses s1) (warehouses s2) →
  getGlobalInventory now s1 productId = getGlobalInventory now s2 productId
  ∧ findOptimalWarehouse draw s1 productId qty dest
    = findOptimalWarehouse draw s2 productId qty dest.
Proof.
  intros H. split.
  - unfold getGlobalInventory.
    by rewrite (globalLoop_sameStock productId _ _ (0, 0, []) H).
  - unfold findOptimalWarehouse.
    by rewrite (candidatesLoop_sameStock draw productId qty dest _ _ 0%nat H).
Qed.

Lemma reads_ignore_status_witness :
  let s1 := runAll [CallRegister "A" "X";
                    CallUpdate (envAt 1) "A" "sku1" 10 "set"] newEngine in
  let s2 := {| warehouses :=
                 map (fun kw => (fst kw, withStatus "inactive" (snd kw)))
                   (warehouses s1);
               syncQueue := syncQueue s1; conflicts := conflicts s1;
               syncInProgress := syncInProgress s1 |} in
  let draw := fun _ : nat => 7 in
  gi_totalQuantity (getGlobalInventory 2 s2 "sku1") = 10
  ∧ cd_warehouseId <$> findOptimalWarehouse draw s2 "sku1" 3 "dest"
    = Some "A".
Proof.
  intros s1 s2 draw.
  assert (H : sameStock (warehouses s1) (warehouses s2)).
  { vm_compute. constructor; [|constructor]. by repeat split. }
  destruct (reads_ignore_status 2 draw s1 s2 "sku1" 3 "dest" H) as [Hg Hf].
  rewrite <- Hg, <- Hf. vm_compute. done.
Defined.

(** ** Distances and shipping estimates *)

Lemma candidatesLoop_distance draw productId qty dest ws k c :
  (∀ i, 0 ≤ draw i < 1000) →
  c ∈ candidatesLoop draw productId qty dest ws k →
  50 ≤ cd_distance c < 1050
  ∧ cd_estimatedShipping c = estimateShipping (cd_distance c).
Proof.
  intros Hdraw. revert k. induction ws as [|[wid w] ws IH]; intros k.
  - by intros ?%elem_of_nil.
  - simpl.
    destruct (wh_inventory w !! productId) as [inventory|]; [|apply IH].
    destruct (quantity inventory - reserved inventory >=? qty); [|apply IH].
    intros [->|Hin]%elem_of_cons; [|by eapply IH].
    simpl. unfold calculateDistance. specialize (Hdraw k). split; [lia|done].
Qed.

(** With the random values in the range [Math.floor(Math.random() * 1000)]
    produces, the candidate [findOptimalWarehouse] returns has a distance
    from 50 to 1049, it carries the shipping estimate of that distance,
    and the estimate is "1-2 days" exactly when the distance is below
    100 and "5-7 days" exactly when it is 1000 or more. *)
Theorem findOptimalWarehouse_distance_range (draw : nat → Z) (s : Engine)
    (productId : string) (qty : Z) (dest : string) (c : Candidate) :
  (∀ i, 0 ≤ draw i < 1000) →
  findOptimalWarehouse draw s productId qty dest = Some c →
  50 ≤ cd_distance c < 1050
  ∧ cd_estimatedShipping c = estimateShipping (cd_distance c)
  ∧ (cd_estimatedShipping c = "1-2 days" ↔ cd_distance c < 100)
  ∧ (cd_estimatedShipping c = "5-7 days" ↔ 1000 ≤ cd_distance c).
Proof.
  intros Hdraw Hbest.
  apply head_sortByDistance_first_least in Hbest
    as (before & after & Hcs & _).
  assert (Hin : c ∈ candidatesLoop draw productId qty dest (warehouses s) 0).
  { rewrite Hcs. apply elem_of_app. right. apply list_elem_of_here. }
  destruct (candidatesLoop_distance _ _ _ _ _ _ _ Hdraw Hin) as [Hd Hs].
  split; [done|]. split; [done|]. rewrite Hs. unfold estimateShipping.
  destruct (cd_distance c <? 100) eqn:H1;
    [|destruct (cd_distance c <? 500) eqn:H2;
      [|destruct (cd_distance c <? 1000) eqn:H3]];
    split; split; intros H; try discriminate H; try lia; done.
Qed.

Lemma findOptimalWarehouse_distance_range_witness :
  let s0 := runAll [CallRegister "A" "X";
                    CallUpdate (envAt 1) "A" "sku1" 10 "set"] newEngine in
  let draw := fun _ : nat => 960 in
  ∃ c, findOptimalWarehouse draw s0 "sku1" 3 "dest" = Some c
       ∧ cd_distance c = 1010
       ∧ cd_estimatedShipping c = "5-7 days".
Proof.
  intros s0 draw. eexists. split; [vm_compute; reflexivity|].
  split; [reflexivity|].
  eapply (findOptimalWarehouse_distance_range draw s0 "sku1" 3 "dest").
  - intros i. unfold draw. lia.
  - vm_compute. reflexivity.
  - vm_compute. discriminate.
Defined.

(** ** Batches from an external system *)

Lemma syncItems_registered wid items : ∀ (s : Engine) (w : Warehouse),
  JsMap.get wid (warehouses s) = Some w →
  ∃ updates w',
    snd (syncItems wid items s) = Ok updates
    ∧ map (fun u => (upd_productId u, upd_quantity u)) updates
      = map snd items
    ∧ Forall (fun u => upd_operation u = "set" ∧ upd_warehouseId u = wid)
        updates
    ∧ syncQueue (fst (syncItems wid items s)) = syncQueue s ++ updates
    ∧ JsMap.get wid (warehouses (fst (syncItems wid items s))) = Some w'
    ∧ ∀ p, curQuantityOf (wh_inventory w' !! p)
           = default (curQuantityOf (wh_inventory w !! p))
               (lastSetFor p items)
           ∧ curReservedOf (wh_inventory w' !! p)
             = curReservedOf (wh_inventory w !! p).
Proof.
  induction items as [|[env [pid qty]] items IH]; intros s w Hget.
  - exists [], w. simpl. rewrite app_nil_r. by repeat split.
  - simpl.
    destruct (updateInventory_Ok env wid pid qty "set" s w _ _ Hget
                (applyOperation_set _ _ _)) as (w1 & Hok1 & Hget1 & Hinv1).
    pose proof (updateInventory_syncQueue env wid pid qty "set" s w Hget)
      as Hq1.
    destruct (updateInventory env wid pid qty "set" s) as [s1 res1].
    simpl in Hok1, Hget1, Hq1. subst res1.
    destruct (IH s1 w1 Hget1)
      as (updates & w' & Hok & Hmap & Hall & Hq & Hget' & Hfinal).
    destruct (syncItems wid items s1) as [s2 res2]. simpl in *. subst res2.
    exists (makeUpdate env s wid pid qty "set" :: updates), w'. simpl.
    split; [done|]. split; [by rewrite Hmap|].
    split; [by constructor|].
    split; [by rewrite Hq, Hq1, <- app_assoc|].
    split; [done|].
    intros p. destruct (Hfinal p) as [Hqty Hres]. rewrite Hqty, Hres, Hinv1.
    destruct (String.eqb_spec p pid) as [->|Hne].
    + rewrite lookup_insert_eq. simpl.
      by destruct (lastSetFor pid items).
    + rewrite lookup_insert_ne by done.
      by destruct (lastSetFor p items).
Qed.

(** On a registered warehouse [syncFromExternalSystem] never throws: it
    returns one [set] update per item, in the order of the items, and the
    sync queue grows by exactly these updates.  Afterwards the origin's
    quantity of each product is the quantity of the last item for that
    product (the one it had if no item names the product), and no
    reserved count of the origin has changed. *)
Theorem syncFromExternalSystem_registered wid
    (items : list (Env * (string * Z))) (s : Engine) (w : Warehouse) :
  JsMap.get wid (warehouses s) = Some w →
  let out := syncFromExternalSystem wid items s in
  ∃ updates w',
    snd out = Ok updates
    ∧ map (fun u => (upd_productId u, upd_quantity u)) updates
      = map snd items
    ∧ Forall (fun u => upd_operation u = "set" ∧ upd_warehouseId u = wid)
        updates
    ∧ syncQueue (fst out) = syncQueue s ++ updates
    ∧ JsMap.get wid (warehouses (fst out)) = Some w'
    ∧ ∀ p, curQuantityOf (wh_inventory w' !! p)
           = default (curQuantityOf (wh_inventory w !! p))
               (lastSetFor p items)
           ∧ curReservedOf (wh_inventory w' !! p)
             = curReservedOf (wh_inventory w !! p).
Proof.
  intros Hget. simpl. unfold syncFromExternalSystem. rewrite Hget.
  by apply syncItems_registered.
Qed.

Lemma syncFromExternalSystem_registered_witness :
  let s0 := runAll [CallRegister "A" "X"; CallRegister "B" "Y";
                    CallUpdate (envAt 1) "A" "sku1" 10 "set";
                    CallReserve (envAt 2) "A" "sku1" 4] newEngine in
  let items := [(envAt 3, ("sku1", 7)); (envAt 4, ("sku2", 5));
                (envAt 5, ("sku1", 9))] in
  let out := syncFromExternalSystem "A" items s0 in
  ∃ updates w',
    snd out = Ok updates
    ∧ length updates = 3%nat
    ∧ JsMap.get "A" (warehouses (fst out)) = Some w'
    ∧ curQuantityOf (wh_inventory w' !! "sku1") = 9
    ∧ curReservedOf (wh_inventory w' !! "sku1") = 4.
Proof.
  intros s0 items out.
  assert (Hget : JsMap.get "A" (warehouses s0)
                 = Some {| wh_id := "A"; wh_location := "X";
                           wh_inventory :=
                             {[ "sku1" := {| quantity := 10; reserved := 4;
                                             version := 2;
                                             lastUpdated := 2 |} ]};
                           wh_lastSync := None; wh_status := "active";
                           wh_lag := 0 |})
    by (vm_compute; reflexivity).
  destruct (syncFromExternalSystem_registered "A" items s0 _ Hget)
    as (updates & w' & Hok & Hmap & _ & _ & Hget' & Hfinal).
  exists updates, w'. split; [exact Hok|]. split.
  - rewrite <- (length_map (fun u => (upd_productId u, upd_quantity u))).
    rewrite Hmap. reflexivity.
  - split; [exact Hget'|]. destruct (Hfinal "sku1") as [Hq Hr].
    rewrite Hq, Hr. vm_compute. split; reflexivity.
Defined.

(** ** The status report *)

Lemma unresolved_le_all (log : list Conflict) :
  (length (filter (fun c => negb (cf_resolved c) = true) log)
   ≤ length log)%nat.
Proof. apply length_filter. Qed.

(** [getSyncStatus] reports one entry per warehouse, in order; a warehouse
    is healthy exactly when its lag is below 10; active warehouses never
    exceed the total, unresolved conflicts never exceed the conflicts; the
    average lag is undefined exactly when no warehouse is registered; and
    the engine is healthy exactly when some warehouse is registered and
    the sum of the lags is below five times their number. *)
Theorem getSyncStatus_report (s : Engine) :
  let r := getSyncStatus s in
  let totalLag := foldl (fun acc st => acc + ss_lag st) 0 (sy_warehouses r) in
  map ss_warehouseId (sy_warehouses r) = JsMap.keys (warehouses s)
  ∧ Forall (fun st => ss_healthy st = true ↔ ss_lag st < 10) (sy_warehouses r)
  ∧ sy_totalWarehouses r = length (warehouses s)
  ∧ (sy_activeWarehouses r ≤ sy_totalWarehouses r)%nat
  ∧ (sy_unresolvedConflicts r ≤ sy_conflicts r)%nat
  ∧ (sy_avgLag r = None ↔ warehouses s = [])
  ∧ (sy_healthy r = true
     ↔ warehouses s ≠ []
       ∧ totalLag < 5 * Z.of_nat (length (warehouses s))).
Proof.
  simpl. split.
  { unfold JsMap.keys. rewrite map_map. apply map_ext. by intros [k w]. }
  split.
  { apply Forall_map. apply Forall_forall. intros [k w] _. simpl.
    apply Z.ltb_lt. }
  split; [done|]. split.
  { etrans; [apply length_filter|]. by rewrite length_map. }
  split; [apply unresolved_le_all|].
  destruct (warehouses s) as [|kw ws] eqn:Hws.
  - simpl. split; [done|]. split; [done|]. by intros [? _].
  - set (n := length (kw :: ws)).
    set (total := foldl (fun acc st => acc + ss_lag st) 0
                    (map statusOf (kw :: ws))).
    assert (Hn : averageLag total n = Some (total # Pos.of_nat n)) by done.
    rewrite Hn. split; [done|].
    destruct (Qlt_le_dec (total # Pos.of_nat n) (5 # 1)) as [Hlt|Hle].
    + split; [|done]. intros _. split; [done|].
      unfold Qlt in Hlt. simpl in Hlt.
      assert (Z.pos (Pos.of_nat n) = Z.of_nat n)
        by (subst n; simpl; lia).
      lia.
    + split; [done|]. intros [_ Hlt]. exfalso.
      unfold Qle in Hle. simpl in Hle.
      assert (Z.pos (Pos.of_nat n) = Z.of_nat n)
        by (subst n; simpl; lia).
      lia.
Qed.

(** ** Conflicts, continued *)

Lemma syncToWarehouse_conflict_witness :
  let w := {| wh_id := "B"; wh_location := "Y";
              wh_inventory :=
                {[ "sku1" := {| quantity := 5; reserved := 0; version := 2;
                                lastUpdated := 7 |} ]};
              wh_lastSync := None; wh_status := "active"; wh_lag := 0 |} in
  let u := {| upd_id := "upd"; upd_warehouseId := "A";
              upd_productId := "sku1"; upd_quantity := 100;
              upd_operation := "set"; upd_timestamp := 7;
              upd_version := 1 |} in
  ∃ c, snd (syncToWarehouse (envAt 7) w u []) = [c]
       ∧ fst (syncToWarehouse (envAt 7) w u []) = w
       ∧ cf_resolved c = true
       ∧ cf_resolution c = Some "kept_current".
Proof.
  intros w u.
  destruct (syncToWarehouse_conflict (envAt 7) w u
              {| quantity := 5; reserved := 0; version := 2;
                 lastUpdated := 7 |} [])
    as (c & prior & Hlog & _ & _ & _ & [(_ & -> & Hw & Hres & Htag)
                                        |[(Hts & _)|(Hts & _)]]).
  - vm_compute. reflexivity.
  - vm_compute. discriminate.
  - exists c. by repeat split.
  - exfalso. vm_compute in Hts. discriminate Hts.
  - exfalso. vm_compute in Hts. discriminate Hts.
Defined.

(** The current state a conflict records is the record object itself, not
    a copy.  When the incoming update is accepted and applied, the
    [reserve] and [release] cases assign to that object before it is
    replaced; so the logged current state shows the quantity, version and
    timestamp the target had at detection, but the reserved count of the
    record the target holds afterwards.  The conflicts logged earlier that
    reference the same object see the same assignment. *)
Theorem conflict_current_state_aliased env (w : Warehouse)
    (u : InventoryUpdate) (current : InventoryRecord) (log : list Conflict)
    (w1 : Warehouse) (x : Z) :
  wh_inventory w !! upd_productId u = Some current →
  upd_version u ≤ version current →
  lastUpdated current < upd_timestamp u →
  applyUpdate w u = Ok (w1, x) →
  ∃ c rec,
    syncToWarehouse env w u log
      = (w1, recordReplaced w (upd_productId u) x log ++ [c])
    ∧ wh_inventory w1 !! upd_productId u = Some rec
    ∧ cf_currentState c
      = {| quantity := quantity current;
           reserved := reserved rec;
           version := version current;
           lastUpdated := lastUpdated current |}.
Proof.
  intros Hcur Hver Hts Happ. unfold syncToWarehouse. rewrite Hcur.
  destruct (version current >=? upd_version u) eqn:Hge; [|lia].
  unfold handleConflict.
  destruct (upd_timestamp u >? lastUpdated current) eqn:Hgt; [|lia].
  rewrite Happ. simpl. revert Happ. unfold applyUpdate.
  destruct (applyOperation _ _ _ _) as [[q' r']|e]; [|done].
  intros [= <- <-]. simpl. eexists _, _. split; [reflexivity|].
  split; [apply lookup_insert_eq|]. done.
Qed.

Lemma conflict_current_state_aliased_witness :
  let w := {| wh_id := "B"; wh_location := "Y";
              wh_inventory :=
                {[ "sku1" := {| quantity := 50; reserved := 3; version := 2;
                                lastUpdated := 7 |} ]};
              wh_lastSync := None; wh_status := "active"; wh_lag := 0 |} in
  let u := {| upd_id := "upd"; upd_warehouseId := "A";
              upd_productId := "sku1"; upd_quantity := 10;
              upd_operation := "reserve"; upd_timestamp := 8;
              upd_version := 2 |} in
  ∃ w1 c,
    syncToWarehouse (envAt 8) w u [] = (w1, [c])
    ∧ reserved (cf_currentState c) = 13
    ∧ version (cf_currentState c) = 2.
Proof.
  intros w u.
  destruct (conflict_current_state_aliased (envAt 8) w u
              {| quantity := 50; reserved := 3; version := 2;
                 lastUpdated := 7 |} []
              {| wh_id := "B"; wh_location := "Y";
                 wh_inventory :=
                   {[ "sku1" := {| quantity := 50; reserved := 13;
                                   version := 2; lastUpdated := 8 |} ]};
                 wh_lastSync := None; wh_status := "active"; wh_lag := 0 |}
              13)
    as (c & rec & Hsync & Hrec & Hstate).
  - vm_compute. reflexivity.
  - vm_compute. discriminate.
  - vm_compute. reflexivity.
  - vm_compute. reflexivity.
  - eexists _, c. split; [exact Hsync|]. rewrite Hstate. simpl.
    vm_compute in Hrec. injection Hrec as <-. split; reflexivity.
Defined.

(** ** Last sync *)

(** What an update does to the last sync of a warehouse.  It is stamped
    with the clock reading of the sync exactly at an active warehouse
    other than the origin, when the call returns, the warehouse holds no
    record of the product of at least the update's version, and the
    update applies there.  In every other case — the origin, a call that
    throws, a warehouse that is not active, a sync that goes through
    conflict handling, a sync whose application throws — the last sync is
    the one the warehouse had. *)
Theorem updateInventory_lastSync env wid pid v op (s : Engine) tid
    (target : Warehouse) :
  JsMap.get tid (warehouses s) = Some target →
  let u := makeUpdate env s wid pid v op in
  let out := updateInventory env wid pid v op s in
  ∃ target',
    JsMap.get tid (warehouses (fst out)) = Some target'
    ∧ ((wh_lastSync target' = Some (env_syncTime env (wh_id target))
        ∧ tid ≠ wid
        ∧ wh_status target = "active"
        ∧ snd out = Ok u
        ∧ (∀ cur, wh_inventory target !! pid = Some cur →
                  version cur < getVersion s wid pid + 1)
        ∧ (∃ w1 x, applyUpdate target u = Ok (w1, x)))
       ∨ (wh_lastSync target' = wh_lastSync target
          ∧ (tid = wid
             ∨ (∃ e, snd out = Throw e)
             ∨ wh_status target ≠ "active"
             ∨ (∃ cur, wh_inventory target !! pid = Some cur
                       ∧ getVersion s wid pid + 1 ≤ version cur)
             ∨ (∃ e, applyUpdate target u = Throw e)))).
Proof.
  intros Htid u out. subst out. unfold updateInventory.
  destruct (JsMap.get wid (warehouses s)) as [w|] eqn:Hget.
  2:{ exists target. split; [done|]. right. split; [done|]. right. left.
      by eexists. }
  fold u.
  destruct (applyUpdate w u) as [[w' x]|e] eqn:Happ.
  2:{ exists target. split; [done|]. right. split; [done|]. right. left.
      by eexists. }
  simpl. rewrite get_propagateUpdate. simpl.
  destruct (decide (tid = wid)) as [->|Hne].
  - rewrite get_set_eq. simpl. unfold propagated. simpl.
    rewrite String.eqb_refl. simpl.
    rewrite Hget in Htid. injection Htid as ->.
    exists w'. split; [done|]. right.
    destruct (applyUpdate_Ok_meta _ _ _ _ Happ) as (_ & _ & _ & _ & ->).
    auto.
  - rewrite get_set_ne by done. rewrite Htid. simpl. unfold propagated.
    destruct (String.eqb_spec tid (upd_warehouseId u)) as [?|_]; [done|].
    destruct (String.eqb_spec (wh_status target) "active") as [Hact|Hact];
      simpl.
    2:{ exists target. split; [done|]. right. auto. }
    eexists. split; [reflexivity|].
    destruct (syncedWarehouse_cases env target u)
      as [(Hlow & [(w1 & x1 & Hw1 & ->)|(e & He & ->)])
         |(cur & Hcur & Hver & [(Hts & ->)|[(Hts & w1 & x1 & Hw1 & ->)
                                            |(Hts & e & He & ->)]])].
    + left. simpl. split_and!; try done. eauto.
    + right. simpl. split; [done|]. do 4 right. eauto.
    + right. split; [done|]. do 3 right. left. exists cur. auto.
    + right.
      destruct (applyUpdate_Ok_meta _ _ _ _ Hw1) as (_ & _ & _ & _ & ->).
      split; [done|]. do 3 right. left. exists cur. auto.
    + right. simpl. split; [done|]. do 4 right. eauto.
Qed.

Lemma updateInventory_lastSync_witness :
  let s0 := runAll [CallRegister "A" "X"; CallRegister "B" "Y"] newEngine in
  let s1 := fst (updateInventory (envAt 5) "A" "sku1" 10 "set" s0) in
  ∃ target',
    JsMap.get "B" (warehouses s1) = Some target'
    ∧ wh_lastSync target' = Some 5.
Proof.
  intros s0 s1.
  destruct (updateInventory_lastSync (envAt 5) "A" "sku1" 10 "set" s0 "B"
              (freshWarehouse "B" "Y"))
    as (target' & Hget' & [(Hstamp & _)|(_ & Hwhy)]).
  - vm_compute. reflexivity.
  - exists target'. split; [exact Hget'|exact Hstamp].
  - exfalso.
    destruct Hwhy as [H|[[e H]|[H|[(cur & H & _)|[e H]]]]].
    + discriminate H.
    + vm_compute in H. discriminate H.
    + by apply H.
    + vm_compute in H. discriminate H.
    + vm_compute in H. discriminate H.
Defined.

(** ** Logged conflicts and the records they reference *)

(** A logged conflict that still references the record a warehouse stores
    for a product sees what a later update at that warehouse assigns to
    the record: when [updateInventory] for the warehouse and the product
    returns, the conflict's current state has the reserved count the
    switch left in the old record object — changed by [reserve] and
    [release], the same for every other operation — and the conflict no
    longer references the stored record, which is a new object. *)
Theorem logged_conflict_follows_record env wid pid v op (s : Engine)
    (w : Warehouse) (cur : InventoryRecord) (i : nat) (c : Conflict)
    (q' r' : Z) :
  JsMap.get wid (warehouses s) = Some w →
  wh_inventory w !! pid = Some cur →
  conflicts s !! i = Some c →
  cf_shared c = true →
  cf_warehouseId c = wh_id w →
  cf_productId c = pid →
  applyOperation op (quantity cur) (reserved cur) v = Ok (q', r') →
  conflicts (fst (updateInventory env wid pid v op s)) !! i
  = Some {| cf_id := cf_id c;
            cf_warehouseId := cf_warehouseId c;
            cf_productId := cf_productId c;
            cf_incomingUpdate := cf_incomingUpdate c;
            cf_currentState := withReserved r' (cf_currentState c);
            cf_timestamp := cf_timestamp c;
            cf_resolved := cf_resolved c;
            cf_resolution := cf_resolution c;
            cf_shared := false |}.
Proof.
  intros Hget Hcur Hi Hshared Hwid Hpid Hop.
  unfold updateInventory. rewrite Hget. unfold applyUpdate. simpl.
  rewrite Hcur. simpl. rewrite Hop. simpl. unfold propagateUpdate.
  set (u := makeUpdate env s wid pid v op).
  set (w' := {| wh_id := wh_id w; wh_location := wh_location w;
                wh_inventory := _; wh_lastSync := wh_lastSync w;
                wh_status := wh_status w; wh_lag := wh_lag w |}).
  destruct (propagateLoop_log env u (JsMap.set wid w' (warehouses s))
              (recordReplaced w pid r' (conflicts s)))
    as (old & new & Hlog & Hold & _).
  simpl in Hlog, Hold.
  destruct (propagateLoop _ _ _ _) as [ws log]. simpl in *. subst log.
  assert (Hpatched :
    recordReplaced w pid r' (conflicts s) !! i
    = Some {| cf_id := cf_id c;
              cf_warehouseId := cf_warehouseId c;
              cf_productId := cf_productId c;
              cf_incomingUpdate := cf_incomingUpdate c;
              cf_currentState := withReserved r' (cf_currentState c);
              cf_timestamp := cf_timestamp c;
              cf_resolved := cf_resolved c;
              cf_resolution := cf_resolution c;
              cf_shared := false |}).
  { unfold recordReplaced.
    change (map ?f ?l) with (f <$> l). rewrite list_lookup_fmap, Hi. simpl.
    unfold referencesRecord. rewrite Hshared, Hwid, Hpid, !String.eqb_refl.
    simpl. by rewrite Hcur. }
  destruct (Forall2_lookup_l _ _ _ _ _ Hold Hpatched)
    as (y & Hy & (_ & Hsame & _)).
  rewrite lookup_app_l by (by eapply lookup_lt_Some).
  rewrite Hy. f_equal. by apply Hsame.
Qed.

Lemma logged_conflict_follows_record_witness :
  let s0 := runAll [CallRegister "B" "Y";
                    CallUpdate (envAt 1) "B" "sku1" 5 "set";
                    CallUpdate (envAt 2) "B" "sku1" 0 "add";
                    CallRegister "A" "X";
                    CallUpdate (envAt 2) "A" "sku1" 100 "set"] newEngine in
  let s1 := fst (reserveInventory (envAt 3) "B" "sku1" 3 s0) in
  (reserved ∘ cf_currentState) <$> conflicts s0 !! 0%nat = Some 0
  ∧ (reserved ∘ cf_currentState) <$> conflicts s1 !! 0%nat = Some 3.
Proof.
  intros s0 s1. split; [vm_compute; reflexivity|].
  subst s1. unfold reserveInventory.
  erewrite (logged_conflict_follows_record (envAt 3) "B" "sku1" 3 "reserve" s0
              {| wh_id := "B"; wh_location := "Y";
                 wh_inventory :=
                   {[ "sku1" := {| quantity := 5; reserved := 0; version := 2;
                                   lastUpdated := 2 |} ]};
                 wh_lastSync := None; wh_status := "active"; wh_lag := 0 |}
              {| quantity := 5; reserved := 0; version := 2;
                 lastUpdated := 2 |}
              0 _ 5 3).
  - reflexivity.
  - vm_compute. reflexivity.
  - vm_compute. reflexivity.
  - vm_compute. reflexivity.
  - reflexivity.
  - reflexivity.
  - reflexivity.
  - vm_compute. reflexivity.
Defined.

(** ** Versions across an update *)

(** C3 — as the specification words it, no call would ever lower the
    version of a record.  It does at a target of a propagation: B holds
    version 2 of the product; A, registered later, sets the product for
    the first time, which builds an update of version 1; the conflict at B
    is resolved for the newer timestamp and B's record becomes version 1. *)
Lemma C3_counterexample :
  let s0 := runAll [CallRegister "B" "Y";
                    CallUpdate (envAt 1) "B" "sku1" 5 "set";
                    CallUpdate (envAt 2) "B" "sku1" 1 "add";
                    CallRegister "A" "X"] newEngine in
  let s1 := run (CallUpdate (envAt 3) "A" "sku1" 100 "set") s0 in
  getVersion s0 "B" "sku1" = 2
  ∧ getVersion s1 "B" "sku1" = 1
  ∧ ¬ (getVersion s0 "B" "sku1" ≤ getVersion s1 "B" "sku1").
Proof. vm_compute. split; [done|]. split; [done|]. intros H. by apply H. Qed.

(** C3 (amended) — what a call of [updateInventory] does to the version
    of a record that exists, for every warehouse and product.  At the
    origin, when the call returns, the version of the update's product
    grows by exactly one.  At another active warehouse where the update
    applies, the record takes the update's version (the origin's prior
    version plus one): a higher version when the record's version was
    below it, and a version that is not higher when the record's version
    was at least the update's and its timestamp older — the one case in
    which a version can drop.  In every other case — the call throws, the
    record is of another product, the warehouse is neither the origin nor
    active, the update throws at the target, or the conflict keeps the
    current record — the record is exactly as it was. *)
Theorem C3_version_after_update env wid pid v op (s : Engine)
    tid (target : Warehouse) p (r : InventoryRecord) :
  JsMap.get tid (warehouses s) = Some target →
  wh_inventory target !! p = Some r →
  let u := makeUpdate env s wid pid v op in
  let out := updateInventory env wid pid v op s in
  ∃ target' r',
    JsMap.get tid (warehouses (fst out)) = Some target'
    ∧ wh_inventory target' !! p = Some r'
    ∧ ((tid = wid ∧ p = pid ∧ snd out = Ok u
        ∧ version r' = version r + 1)
       ∨ (tid ≠ wid ∧ p = pid ∧ wh_status target = "active"
          ∧ snd out = Ok u
          ∧ (∃ w1 x, applyUpdate target u = Ok (w1, x))
          ∧ version r < getVersion s wid pid + 1
          ∧ version r' = getVersion s wid pid + 1)
       ∨ (tid ≠ wid ∧ p = pid ∧ wh_status target = "active"
          ∧ snd out = Ok u
          ∧ (∃ w1 x, applyUpdate target u = Ok (w1, x))
          ∧ getVersion s wid pid + 1 ≤ version r
          ∧ lastUpdated r < env_now env
          ∧ version r' = getVersion s wid pid + 1)
       ∨ (r' = r
          ∧ ((∃ e, snd out = Throw e)
             ∨ p ≠ pid
             ∨ (tid ≠ wid ∧ wh_status target ≠ "active")
             ∨ (tid ≠ wid ∧ ∃ e, applyUpdate target u = Throw e)
             ∨ (tid ≠ wid
                ∧ getVersion s wid pid + 1 ≤ version r
                ∧ env_now env ≤ lastUpdated r)))).
Proof.
  intros Htid Hr u out. subst out. unfold updateInventory.
  destruct (JsMap.get wid (warehouses s)) as [w|] eqn:Hget.
  2:{ exists target, r. split; [done|]. split; [done|].
      do 3 right. split; [done|]. left. by eexists. }
  fold u.
  destruct (applyUpdate w u) as [[w' x]|e] eqn:Happ.
  2:{ exists target, r. split; [done|]. split; [done|].
      do 3 right. split; [done|]. left. by eexists. }
  simpl. rewrite get_propagateUpdate. simpl.
  destruct (applyUpdate_Ok_inventory _ _ _ _ Happ) as (rec & Hi & Hv & _).
  simpl in Hi, Hv.
  destruct (decide (tid = wid)) as [->|Hne].
  - rewrite get_set_eq. simpl. unfold propagated. simpl.
    rewrite String.eqb_refl. simpl.
    rewrite Hget in Htid. injection Htid as ->.
    destruct (decide (p = pid)) as [->|Hp].
    + exists w', rec. rewrite Hi, lookup_insert_eq.
      split; [done|]. split; [done|]. left.
      repeat (split; [done|]). rewrite Hv.
      unfold getVersion. by rewrite Hget, Hr.
    + exists w', r. rewrite Hi, lookup_insert_ne by done.
      split; [done|]. split; [done|]. do 3 right. split; [done|].
      right. by left.
  - rewrite get_set_ne by done. rewrite Htid. simpl. unfold propagated.
    destruct (String.eqb_spec tid (upd_warehouseId u)) as [?|_]; [done|].
    destruct (String.eqb_spec (wh_status target) "active") as [Hact|Hact];
      simpl.
    2:{ exists target, r. split; [done|]. split; [done|].
        do 3 right. split; [done|]. right. right. by left. }
    destruct (decide (p = pid)) as [->|Hp].
    2:{ exists (syncedWarehouse env target u), r. split; [done|]. split.
        - destruct (syncedWarehouse_inventory env target u)
            as [->|(rec' & -> & _)]; [done|].
          by rewrite lookup_insert_ne.
        - do 3 right. split; [done|]. right. by left. }
    destruct (syncedWarehouse_cases env target u)
      as [(Hlow & [(w1 & x1 & Hw1 & Hsw)|(e & He & Hsw)])
         |(cur & Hcur & Hver & [(Hts & Hsw)|[(Hts & w1 & x1 & Hw1 & Hsw)
                                             |(Hts & e & He & Hsw)]])];
      rewrite Hsw; simpl in *.
    + destruct (applyUpdate_Ok_inventory _ _ _ _ Hw1)
        as (rec1 & Hi1 & Hv1 & _). simpl in Hi1, Hv1.
      exists (withLastSync (env_syncTime env (wh_id target)) w1), rec1.
      simpl. rewrite Hi1, lookup_insert_eq.
      split; [done|]. split; [done|]. right. left.
      specialize (Hlow r Hr).
      split_and!; try done; try lia; eauto.
    + exists (withLagIncremented target), r. simpl.
      split; [done|]. split; [done|]. do 3 right. split; [done|].
      do 3 right. left. eauto.
    + rewrite Hr in Hcur. injection Hcur as <-.
      exists target, r. split; [done|]. split; [done|].
      do 3 right. split; [done|]. do 4 right. split_and!; try done; lia.
    + rewrite Hr in Hcur. injection Hcur as <-.
      destruct (applyUpdate_Ok_inventory _ _ _ _ Hw1)
        as (rec1 & Hi1 & Hv1 & _). simpl in Hi1, Hv1.
      exists w1, rec1. rewrite Hi1, lookup_insert_eq.
      split; [done|]. split; [done|]. right. right. left.
      split_and!; try done; try lia; eauto.
    + exists (withLagIncremented target), r. simpl.
      split; [done|]. split; [done|]. do 3 right. split; [done|].
      do 3 right. left. eauto.
Qed.

Lemma C3_version_after_update_witness :
  let s0 := runAll [CallRegister "A" "X"; CallRegister "B" "Y";
                    CallUpdate (envAt 1) "A" "sku1" 10 "set"] newEngine in
  let s1 := fst (updateInventory (envAt 2) "A" "sku1" 3 "add" s0) in
  ∃ target' r',
    JsMap.get "B" (warehouses s1) = Some target'
    ∧ wh_inventory target' !! "sku1" = Some r'
    ∧ version r' = 2.
Proof.
  intros s0 s1.
  destruct (C3_version_after_update (envAt 2) "A" "sku1" 3 "add" s0
              "B"
              {| wh_id := "B"; wh_location := "Y";
                 wh_inventory :=
                   {[ "sku1" := {| quantity := 10; reserved := 0;
                                   version := 1; lastUpdated := 1 |} ]};
                 wh_lastSync := Some 1; wh_status := "active"; wh_lag := 0 |}
              "sku1"
              {| quantity := 10; reserved := 0; version := 1;
                 lastUpdated := 1 |})
    as (target' & r' & Hget' & Hrec' & Hcase).
  - vm_compute. reflexivity.
  - vm_compute. reflexivity.
  - exists target', r'. split; [exact Hget'|]. split; [exact Hrec'|].
    destruct Hcase as [(H & _)|[(_ & _ & _ & _ & _ & _ & H)
                               |[(_ & _ & _ & _ & _ & H & _)|(_ & H)]]].
    + discriminate H.
    + rewrite H. vm_compute. reflexivity.
    + exfalso. vm_compute in H. by apply H.
    + exfalso.
      destruct H as [[e H]|[H|[(_ & H)|[(_ & e & H)|(_ & H & _)]]]].
      * vm_compute in H. discriminate H.
      * by apply H.
      * by apply H.
      * vm_compute in H. discriminate H.
      * vm_compute in H. by apply H.
Defined.
